(** * Clashes: the filter pipeline and the create-clash action

    A shallow embedding of the TypeScript sources of the workshop
    repository:

    - [filterClashes]   (src/domain/clashes/actions.ts, README.md l.77-103)
    - [GET]             (src/app/api/clashes/route.ts,  README.md l.128-153)
    - [useClashes]      (src/domain/clashes/use-clashes.ts, README.md l.189-239)
    - [createClashSchema], [createClash]  (src/unnamed/part_001)

    JavaScript strings are sequences of UTF-16 code units.  The model
    takes [string] (a sequence of 8-bit characters) for the strings whose
    code units all lie in U+0000..U+00FF; on that range [toLowerCase],
    [trim], [includes], [split] and [length] below are exactly the
    ECMAScript operations. *)

From Stdlib Require Import Ascii String NArith Bool List.
From stdpp Require Import base option list strings gmap pretty.

Local Open Scope string_scope.
Local Open Scope list_scope.

(** ** ECMAScript string operations *)

Module JsString.

(** Code units with an upper-case mapping in U+0000..U+00FF:
    A-Z and U+00C0..U+00DE without the multiplication sign U+00D7. *)
Definition is_upper (c : ascii) : bool :=
  let n := N_of_ascii c in
  ((65 <=? n) && (n <=? 90) ||
   (192 <=? n) && (n <=? 222) && negb (n =? 215))%N.

Definition lower_unit (c : ascii) : ascii :=
  if is_upper c then ascii_of_N (N_of_ascii c + 32) else c.

(** [String.prototype.toLowerCase] *)
Fixpoint toLowerCase (s : string) : string :=
  match s with
  | EmptyString => EmptyString
  | String c s' => String (lower_unit c) (toLowerCase s')
  end.

(** WhiteSpace and LineTerminator code units in U+0000..U+00FF:
    TAB, LF, VT, FF, CR, SP and NBSP. *)
Definition is_white_space (c : ascii) : bool :=
  let n := N_of_ascii c in
  ((9 <=? n) && (n <=? 13) || (n =? 32) || (n =? 160))%N.

Fixpoint trimStart (s : string) : string :=
  match s with
  | EmptyString => EmptyString
  | String c s' => if is_white_space c then trimStart s' else s
  end.

Fixpoint trimEnd (s : string) : string :=
  match s with
  | EmptyString => EmptyString
  | String c s' =>
      match trimEnd s' with
      | EmptyString => if is_white_space c then EmptyString else String c EmptyString
      | r => String c r
      end
  end.

(** [String.prototype.trim] *)
Definition trim (s : string) : string := trimEnd (trimStart s).

(** [String.prototype.includes] *)
Fixpoint includes (s searchString : string) : bool :=
  String.prefix searchString s ||
  match s with
  | EmptyString => false
  | String _ s' => includes s' searchString
  end.

(** ToBoolean on a string: only the empty string is falsy. *)
Definition truthy (s : string) : bool :=
  match s with
  | EmptyString => false
  | String _ _ => true
  end.

(** One pass of [String.prototype.split] with a one-unit separator:
    [acc] holds the piece being read, in reverse. *)
Fixpoint split_from (sep : ascii) (acc : string) (s : string) : list string :=
  match s with
  | EmptyString => [String.rev acc]
  | String c s' =>
      if Ascii.eqb c sep then String.rev acc :: split_from sep EmptyString s'
      else split_from sep (String c acc) s'
  end.

Definition split (sep : ascii) (s : string) : list string :=
  split_from sep EmptyString s.

(** A string every unit of which is white space. *)
Fixpoint whitespace_only (s : string) : bool :=
  match s with
  | EmptyString => true
  | String c s' => is_white_space c && whitespace_only s'
  end.

End JsString.

Import JsString.

(** ** Completions, thrown values and the console *)

Module Js.

(** A thrown value: an [Error] instance with its [message], or a value
    that is not an [Error] instance. *)
Inductive Thrown : Type :=
| ErrorObject (message : string)
| OtherValue (repr : string).

(** How a (possibly awaited) evaluation completes. *)
Inductive Completion (A : Type) : Type :=
| Return (a : A)
| Throw (e : Thrown).
Global Arguments Return {A} a.
Global Arguments Throw {A} e.

(** [console.error(label, value)] *)
Record LogEntry : Type := ConsoleError { label : string; logged : Thrown }.

(** Code with outward effects of type [E] (console lines, network
    calls): the effects it performed, in order, and its completion. *)
Definition M (E A : Type) : Type := (list E * Completion A)%type.

Global Instance Completion_ret : MRet Completion := λ A a, Return a.
Global Instance Completion_bind : MBind Completion := λ A B f c,
  match c with
  | Return a => f a
  | Throw e => Throw e
  end.

Global Instance M_ret {E} : MRet (M E) := λ A a, ([], Return a).
Global Instance M_bind {E} : MBind (M E) := λ A B f c,
  match c with
  | (out, Return a) => let '(out', r) := f a in (out ++ out', r)
  | (out, Throw e) => (out, Throw e)
  end.

Definition throw {E A} (e : Thrown) : M E A := ([], Throw e).

Definition emit {E} (e : E) : M E unit := ([e], Return tt).

(** [await p] for a promise that settles as [c]. *)
Definition await {E A} (c : Completion A) : M E A := ([], c).

Definition console_error (label : string) (value : Thrown) : M LogEntry unit :=
  emit (ConsoleError label value).

(** [try { body } catch (error) { handler error }] *)
Definition try_catch {E A} (body : M E A) (handler : Thrown → M E A) : M E A :=
  match body with
  | (out, Return a) => (out, Return a)
  | (out, Throw e) => let '(out', r) := handler e in (out ++ out', r)
  end.

(** [error instanceof Error ? error.message : fallback] *)
Definition message_or (fallback : string) (error : Thrown) : string :=
  match error with
  | ErrorObject message => message
  | OtherValue _ => fallback
  end.

End Js.

Import Js.

(** ** The read model *)

Record Peer : Type := { peer_id : string; peer_name : string }.

(** A record of the [clashes] query.  The filter reads [title] and
    [description] through optional chaining on a value of type [any], so
    both may be absent. *)
Record Clash : Type := {
  id : string;
  title : option string;
  description : option string;
  location : string;
  address : string;
  date : string;
  pictureUrl : string;
  createdByPeer : Peer;
  participants : list Peer
}.

(** ** src/domain/clashes/actions.ts *)

Module Actions.

(** The [data] of the GetAllClashes query result. *)
Record QueryData : Type := { clashes : list Clash }.

(** [field?.toLowerCase().includes(searchTerm) ?? false] *)
Definition field_match (searchTerm : string) (field : option string) : bool :=
  match field with
  | Some s => includes (toLowerCase s) searchTerm
  | None => false
  end.

(** [filterClashes(term)]; [query] is how
    [getClient().query({query: GET_ALL_CLASHES, fetchPolicy: 'no-cache'})]
    settles. *)
Definition filterClashes (query : Completion QueryData) (term : string)
  : M LogEntry (list Clash) :=
  try_catch
    (data ← await query;
     if negb (truthy term) || String.eqb (trim term) "" then
       mret (clashes data)
     else
       let searchTerm := trim (toLowerCase term) in
       let filteredClashes :=
         List.filter
           (λ clash,
              let titleMatch := field_match searchTerm (title clash) in
              let descriptionMatch := field_match searchTerm (description clash) in
              titleMatch || descriptionMatch)
           (clashes data) in
       mret filteredClashes)
    (λ error,
       console_error "Error filtering clashes:" error ≫= λ _,
       throw (ErrorObject "Failed to filter clashes")).

(** The callback that [filterClashes] hands to [filter], by name. *)
Definition keeps (searchTerm : string) (clash : Clash) : bool :=
  field_match searchTerm (title clash) || field_match searchTerm (description clash).

End Actions.

(** ** src/app/api/clashes/route.ts *)

Module Route.

(** The request, as far as the handler reads it:
    [new URL(request.url).searchParams.get('term')]. *)
Record NextRequest : Type := { searchParams_term : option string }.

Inductive Body : Type :=
| SuccessBody (data : list Clash) (count : nat)
    (* {success: true, data, count} *)
| FailureBody (error : string) (message : string).
    (* {success: false, error, message} *)

Record NextResponse : Type := { status : nat; body : Body }.

(** [NextResponse.json(body)] and [NextResponse.json(body, {status})] *)
Definition json (b : Body) (st : option nat) : NextResponse :=
  {| status := default 200 st; body := b |}.

(** [GET(request)].  Its first argument stands for the imported
    [filterClashes]. *)
Definition GET (filterClashes : string → M LogEntry (list Clash))
    (request : NextRequest) : M LogEntry NextResponse :=
  try_catch
    (let term := default "" (searchParams_term request) in
     clashes ← filterClashes term;
     mret (json (SuccessBody clashes (length clashes)) None))
    (λ error,
       console_error "API Error:" error ≫= λ _,
       mret (json (FailureBody "Failed to fetch clashes"
                     (message_or "Unknown error" error))
               (Some 500))).

(** The handler as deployed, importing the server action. *)
Definition route (query : Completion Actions.QueryData)
  : NextRequest → M LogEntry NextResponse :=
  GET (Actions.filterClashes query).

End Route.

(** ** src/domain/clashes/use-clashes.ts *)

Module UseClashes.

(** The three [useState] cells of the hook. *)
Record HookState : Type := {
  clashes : list Clash;
  loading : bool;
  error : option string
}.

(** [useState([])], [useState(true)], [useState(null)] *)
Definition initial : HookState :=
  {| clashes := []; loading := true; error := None |}.

Definition setClashes (v : list Clash) (s : HookState) : HookState :=
  {| clashes := v; loading := loading s; error := error s |}.
Definition setLoading (v : bool) (s : HookState) : HookState :=
  {| clashes := clashes s; loading := v; error := error s |}.
Definition setError (v : option string) (s : HookState) : HookState :=
  {| clashes := clashes s; loading := loading s; error := v |}.

(** The parsed JSON body ([result]); [message] may be absent. *)
Record Envelope : Type := {
  success : bool;
  data : list Clash;
  message : option string
}.

(** What [fetch] resolves with: [response.ok], [response.status], and
    how [response.json()] settles. *)
Record Response : Type := {
  ok : bool;
  status : nat;
  json : Completion Envelope
}.

(** The [term] query parameter of the URL that [fetchClashes] builds:
    set only when [searchTerm.trim()] is truthy. *)
Definition url_term (searchTerm : string) : option string :=
  if truthy (trim searchTerm) then Some (trim searchTerm) else None.

(** [fetchClashes], up to [await fetch(...)]. *)
Definition fetchClashes_begin (s : HookState) : HookState :=
  setError None (setLoading true s).

(** The rest of the [try] block once [fetch] has settled as
    [fetched]: the list handed to [setClashes], or the thrown value. *)
Definition fetchClashes_body (fetched : Completion Response)
  : Completion (list Clash) :=
  response ← fetched;
  if negb (ok response) then
    Throw (ErrorObject ("HTTP error! status: " +:+ pretty (status response)))
  else
    result ← json response;
    if negb (success result) then
      Throw (ErrorObject
               (match message result with
                | Some m => if truthy m then m else "Failed to fetch clashes"
                | None => "Failed to fetch clashes"
                end))
    else Return (data result).

(** [fetchClashes], from the point where [fetch] settles: the end of
    [try], then [catch] and [finally]. *)
Definition fetchClashes_settle (fetched : Completion Response)
    (s : HookState) : HookState :=
  let s' :=
    match fetchClashes_body fetched with
    | Return d => setClashes d s
    | Throw err =>
        setClashes [] (setError (Some (message_or "An unknown error occurred" err)) s)
    end in
  setLoading false s'.

(** The list that the continuation leaves in [clashes]. *)
Definition settled_clashes (fetched : Completion Response) : list Clash :=
  match fetchClashes_body fetched with
  | Return d => d
  | Throw _ => []
  end.

(** One whole call of [reload(term)] with nothing else in between. *)
Definition reload (fetched : Completion Response) (s : HookState) : HookState :=
  fetchClashes_settle fetched (fetchClashes_begin s).

(** The hook as an event-driven machine on one JavaScript thread: a call
    of [reload] runs up to its [await]; later its response arrives and
    the continuation runs.  Calls and arrivals interleave freely. *)
Inductive Event : Type :=
| Issued (term : string)
| Arrived (term : string) (fetched : Completion Response).

Definition step (s : HookState) (e : Event) : HookState :=
  match e with
  | Issued _ => fetchClashes_begin s
  | Arrived _ fetched => fetchClashes_settle fetched s
  end.

Definition run (s : HookState) (trace : list Event) : HookState :=
  fold_left step trace s.

(** [fetch('/api/clashes?term=...')] served by the route handler of this
    application, over a transport that delivers the response. *)
Definition fetch_route (query : Completion Actions.QueryData)
    (searchTerm : string) : Completion Response :=
  match snd (Route.route query {| Route.searchParams_term := url_term searchTerm |}) with
  | Return r =>
      Return
        {| ok := ((200 <=? Route.status r) && (Route.status r <=? 299))%nat;
           status := Route.status r;
           json :=
             Return
               match Route.body r with
               | Route.SuccessBody d _ =>
                   {| success := true; data := d; message := None |}
               | Route.FailureBody _ m =>
                   {| success := false; data := []; message := Some m |}
               end |}
  | Throw e => Throw e
  end.

End UseClashes.

(** ** src/unnamed/part_001: the create-clash schema and action *)

Module CreateClash.

(** [formValues]: each entry is [formData.get(name) as string], which is
    [null] when the form has no such field. *)
Record FormValues : Type := {
  fv_title : option string;
  fv_description : option string;
  fv_location : option string;
  fv_address : option string;
  fv_date : option string;
  fv_pictureUrl : option string;
  fv_participantIds : option string;
  fv_createdByPeerId : option string
}.

(** The object handed to [createClashSchema.safeParse]. *)
Record SchemaInput : Type := {
  in_title : option string;
  in_description : option string;
  in_location : option string;
  in_address : option string;
  in_date : option string;
  in_pictureUrl : option string;
  in_participantIds : list string;
  in_createdByPeerId : option string
}.

(** [CreateClashFormData], the output type of the schema. *)
Record CreateClashFormData : Type := {
  d_title : string;
  d_description : string;
  d_location : string;
  d_address : string;
  d_date : string;
  d_pictureUrl : string;
  d_participantIds : list string;
  d_createdByPeerId : string
}.

(** The checks chained on [z.string()], each with its message. *)
Inductive Check : Type :=
| Min (n : nat) (msg : string)
| Max (n : nat) (msg : string)
| Url (msg : string).

Definition check_message (c : Check) : string :=
  match c with
  | Min _ msg | Max _ msg | Url msg => msg
  end.

Inductive SafeParseResult : Type :=
| ParseSuccess (data : CreateClashFormData)
| ParseError (fieldErrors : gmap string (list string)).
    (* carries [error.flatten().fieldErrors] *)

(** The state a form action returns. *)
Record FormState : Type := {
  errors : gmap string (list string);
  message : string;
  values : FormValues
}.

(** [getClient().mutate({mutation: CREATE_CLASH, variables: {input}})] *)
Inductive Effect : Type := Mutate (input : CreateClashFormData).

Section Zod.

(** Zod's [.url()] check, which defers to the platform's URL parser. *)
Variable is_valid_url : string → bool.
(** Zod's message for a value that is not a string. *)
Variable invalid_type_message : string.

Definition check_passes (c : Check) (s : string) : bool :=
  match c with
  | Min n _ => (n <=? String.length s)%nat
  | Max n _ => (String.length s <=? n)%nat
  | Url _ => is_valid_url s
  end.

(** The messages [z.string().<checks>] reports for a value: the type
    error alone for [null], else one message per failed check. *)
Definition z_string (checks : list Check) (v : option string) : list string :=
  match v with
  | None => [invalid_type_message]
  | Some s => check_message <$> List.filter (λ c, negb (check_passes c s)) checks
  end.

(** [createClashSchema]: the messages per field.  [participantIds] is
    [z.array(z.string()).default([])]; the action always passes it an
    array of strings, which reports nothing. *)
Definition createClashSchema (input : SchemaInput) : list (string * list string) :=
  [ ("title", z_string [Min 1 "Title is required"; Max 100 "Title too long"]
                (in_title input));
    ("description", z_string [Min 10 "Description must be at least 10 characters"]
                      (in_description input));
    ("location", z_string [Min 1 "Location is required"] (in_location input));
    ("address", z_string [Min 1 "Address is required"] (in_address input));
    ("date", z_string [Min 1 "Date is required"] (in_date input));
    ("pictureUrl", z_string [Url "Must be a valid URL"] (in_pictureUrl input));
    ("participantIds", []);
    ("createdByPeerId", z_string [Min 1 "Valid peer ID required"]
                          (in_createdByPeerId input)) ].

(** [error.flatten().fieldErrors]: the fields that reported something. *)
Definition fieldErrors (issues : list (string * list string))
  : gmap string (list string) :=
  foldr (λ '(field, msgs) m,
           match msgs with
           | [] => m
           | _ :: _ => <[field := msgs]> m
           end) ∅ issues.

Definition parsed (input : SchemaInput) : option CreateClashFormData :=
  t ← in_title input; d ← in_description input; l ← in_location input;
  a ← in_address input; dt ← in_date input; u ← in_pictureUrl input;
  p ← in_createdByPeerId input;
  Some {| d_title := t; d_description := d; d_location := l; d_address := a;
          d_date := dt; d_pictureUrl := u;
          d_participantIds := in_participantIds input;
          d_createdByPeerId := p |}.

(** [createClashSchema.safeParse(input)] *)
Definition safeParse (input : SchemaInput) : SafeParseResult :=
  let issues := createClashSchema input in
  match parsed input with
  | Some data =>
      if forallb (λ '(_, msgs), bool_decide (msgs = [])) issues
      then ParseSuccess data
      else ParseError (fieldErrors issues)
  | None => ParseError (fieldErrors issues)
  end.

(** The [participantIds] entry of the parsed object. *)
Definition participantIds_of (raw : option string) : list string :=
  match raw with
  | Some s =>
      if truthy s then List.filter truthy (trim <$> split "," s) else []
  | None => []
  end.

Definition schema_input (formValues : FormValues) : SchemaInput :=
  {| in_title := fv_title formValues;
     in_description := fv_description formValues;
     in_location := fv_location formValues;
     in_address := fv_address formValues;
     in_date := fv_date formValues;
     in_pictureUrl := fv_pictureUrl formValues;
     in_participantIds := participantIds_of (fv_participantIds formValues);
     in_createdByPeerId := fv_createdByPeerId formValues |}.

(** [redirect(path)] of next/navigation returns [never]: it throws
    the framework's NEXT_REDIRECT error. *)
Definition redirect {A} (path : string) : M Effect A :=
  throw (ErrorObject "NEXT_REDIRECT").

(** [createClash(prevState, formData)]; [prevState] is not read.
    [mutate input] is how the mutation settles, as
    [data?.createClash?.id]. *)
Definition createClash
    (mutate : CreateClashFormData → Completion (option string))
    (formData : FormValues) : M Effect FormState :=
  let formValues := formData in
  let validatedFields := safeParse (schema_input formValues) in
  match validatedFields with
  | ParseError errs =>
      mret {| errors := errs;
              message := "Validation failed. Please check your inputs.";
              values := formValues |}
  | ParseSuccess data =>
      try_catch
        (created ← (emit (Mutate data) ≫= λ _, await (mutate data));
         (match created with
          | Some i => if truthy i then redirect ("/clashes/" +:+ i) else mret tt
          | None => mret tt
          end) ≫= λ _,
         mret {| errors := ∅;
                 message := "Failed to create clash. Please try again.";
                 values := formValues |})
        (λ _,
           mret {| errors := ∅;
                   message := "Failed to create clash. Please try again.";
                   values := formValues |})
  end.

End Zod.

End CreateClash.

(** ** src/components/clash-list/clash-list.tsx *)

Module ClashList.

(** What the component renders: the error panel alone, or the page with
    its filter and the sections that its conditions let through. *)
Inductive Rendered : Type :=
| ErrorPanel (text : string)
    (* the error text and the "Try Again" button, which calls reload('') *)
| Page (filter_loading : bool)          (* <ClashFilter loading={loading} /> *)
       (skeletons : option nat)         (* the loading placeholders *)
       (grid : option (list Clash))     (* one ClashCard per clash *)
       (counter : option string).       (* the results counter *)

(** [Showing {clashes.length} clash{clashes.length !== 1 ? 'es' : ''}] *)
Definition counter_text (n : nat) : string :=
  "Showing " +:+ pretty n +:+ " clash" +:+ (if negb (n =? 1)%nat then "es" else "").

(** Reading an identifier that is bound nowhere throws a ReferenceError,
    an [Error] instance (message in V8's wording). *)
Definition ReferenceError (name : string) : Thrown :=
  ErrorObject (name +:+ " is not defined").

(** [ClashList()], on the state that [useClashes()] hands it.  The module
    imports [useClashes], [ClashFilter] and [ClashCard] only, so the
    empty-state section, which is built when [!loading &&
    clashes.length === 0] holds and mentions [<Search />], throws instead
    of rendering. *)
Definition ClashList (s : UseClashes.HookState) : Completion Rendered :=
  let clashes := UseClashes.clashes s in
  let loading := UseClashes.loading s in
  let page :=
    if negb loading && (length clashes =? 0)%nat then Throw (ReferenceError "Search")
    else
      Return
        (Page loading
           (if loading then Some 6%nat else None)
           (if negb loading && (0 <? length clashes)%nat then Some clashes else None)
           (if negb loading && (0 <? length clashes)%nat
            then Some (counter_text (length clashes)) else None)) in
  match UseClashes.error s with
  | Some e => if truthy e then Return (ErrorPanel e) else page
  | None => page
  end.

End ClashList.

(** ** src/components/clash-filter/clash-filter.tsx, with the search button *)

Module ClashFilter.

(** What the user does to the component. *)
Inductive Event : Type :=
| Change (value : string)     (* onChange of the input *)
| KeyPress (key : string)     (* onKeyPress of the input *)
| ClickSearch                 (* onClick of the Search button *)
| ClickClear.                 (* onClick of the clear button *)

(** Each handler gives the next [searchTerm] and the calls of [onFilter]
    it makes. *)
Definition handleSearch (searchTerm : string) : string * list string :=
  (searchTerm, [searchTerm]).

Definition handleClear (searchTerm : string) : string * list string :=
  ("", [""]).

Definition handleKeyPress (key : string) (searchTerm : string) : string * list string :=
  if String.eqb key "Enter" then handleSearch searchTerm else (searchTerm, []).

Definition handle (searchTerm : string) (e : Event) : string * list string :=
  match e with
  | Change value => (value, [])
  | KeyPress key => handleKeyPress key searchTerm
  | ClickSearch => handleSearch searchTerm
  | ClickClear => handleClear searchTerm
  end.

(** A session: the final [searchTerm] and all calls of [onFilter], in
    order, starting from [useState('')] or any later state. *)
Fixpoint run (searchTerm : string) (events : list Event) : string * list string :=
  match events with
  | [] => (searchTerm, [])
  | e :: rest =>
      let '(searchTerm', calls) := handle searchTerm e in
      let '(final, calls') := run searchTerm' rest in
      (final, calls ++ calls')
  end.

(** The controls as rendered: the input and the Search button carry
    [disabled={loading}]; the clear button exists while [searchTerm] is
    truthy and is never disabled. *)
Definition offered (loading : bool) (searchTerm : string) (e : Event) : bool :=
  match e with
  | Change _ | KeyPress _ | ClickSearch => negb loading
  | ClickClear => truthy searchTerm
  end.

(** A sequence of interactions each of which the component offers at the
    moment it happens, under one value of the [loading] prop. *)
Fixpoint offered_all (loading : bool) (searchTerm : string) (events : list Event)
  : bool :=
  match events with
  | [] => true
  | e :: rest =>
      offered loading searchTerm e && offered_all loading (fst (handle searchTerm e)) rest
  end.

End ClashFilter.

(** ** The debounce utility of the debounced clash-filter.tsx *)

Module Debounce.

(** A pending timer of the platform: its handle, the time left and the
    arguments its callback [() => func(...args)] closes over. *)
Record Timer : Type := { handle : nat; remaining : nat; args : string }.

(** The closure state of one [debounce(func, wait)] and the part of the
    platform it touches. *)
Record World : Type := {
  timeout : option nat;     (* [let timeout: NodeJS.Timeout | null] *)
  timers : list Timer;      (* timers set and neither fired nor cleared *)
  next_handle : nat;        (* the handle the next [setTimeout] returns *)
  invoked : list string     (* the calls of [func] so far, in order *)
}.

(** Right after [debounce(func, wait)]. *)
Definition fresh : World :=
  {| timeout := None; timers := []; next_handle := 1; invoked := [] |}.

(** [clearTimeout(h)]: a handle that is not pending is ignored. *)
Definition clearTimeout (h : nat) (ts : list Timer) : list Timer :=
  List.filter (λ t, negb (handle t =? h)%nat) ts.

Section Wait.

Variable wait : nat.

(** [debounced(...args)] *)
Definition debounced (a : string) (w : World) : World :=
  let ts :=
    match timeout w with
    | Some h => clearTimeout h (timers w)
    | None => timers w
    end in
  {| timeout := Some (next_handle w);
     timers := ts ++ [{| handle := next_handle w; remaining := wait; args := a |}];
     next_handle := S (next_handle w);
     invoked := invoked w |}.

(** [debounced.cancel()] *)
Definition cancel (w : World) : World :=
  match timeout w with
  | Some h =>
      {| timeout := None; timers := clearTimeout h (timers w);
         next_handle := next_handle w; invoked := invoked w |}
  | None => w
  end.

(** One unit of time passes: the timers that are due run their callbacks,
    oldest first, and the others come one unit closer. *)
Definition due (t : Timer) : bool := (remaining t <=? 1)%nat.

Definition tick (w : World) : World :=
  {| timeout := timeout w;
     timers :=
       (λ t, {| handle := handle t; remaining := pred (remaining t); args := args t |})
         <$> List.filter (λ t, negb (due t)) (timers w);
     next_handle := next_handle w;
     invoked := invoked w ++ (args <$> List.filter due (timers w)) |}.

Inductive Event : Type :=
| Call (a : string)
| Cancel
| Tick.

Definition step (w : World) (e : Event) : World :=
  match e with
  | Call a => debounced a w
  | Cancel => cancel w
  | Tick => tick w
  end.

Definition run (w : World) (events : list Event) : World :=
  fold_left step events w.

End Wait.

(** A burst: each call followed by some idle time. *)
Definition burst (calls : list (string * nat)) : list Event :=
  flat_map (λ '(a, gap), Call a :: replicate gap Tick) calls.

Definition is_call (e : Event) : bool :=
  match e with
  | Call _ => true
  | _ => false
  end.

End Debounce.

(** ** The URL-synchronised ClashFilter (search-button variant) *)

Module URLSearchParams.

(** The list of name-value pairs of a URLSearchParams object. *)
Definition get (name : string) (ps : list (string * string)) : option string :=
  snd <$> List.find (λ p, String.eqb (fst p) name) ps.

Definition delete (name : string) (ps : list (string * string))
  : list (string * string) :=
  List.filter (λ p, negb (String.eqb (fst p) name)) ps.

(** [set]: the first pair of that name takes the value and the others of
    that name go; without such a pair, one is appended. *)
Fixpoint set (name value : string) (ps : list (string * string))
  : list (string * string) :=
  match ps with
  | [] => [(name, value)]
  | (k, v) :: rest =>
      if String.eqb k name then (name, value) :: delete name rest
      else (k, v) :: set name value rest
  end.

End URLSearchParams.

Module ClashFilterUrl.

(** What a handler does to the outside: [router.push] of the query
    string of the given parameters, and [onFilter]. *)
Inductive Effect : Type :=
| RouterPush (params : list (string * string))
| OnFilter (term : string).

(** [useState(searchParams.get('q') || '')] *)
Definition initial_searchTerm (searchParams : list (string * string)) : string :=
  match URLSearchParams.get "q" searchParams with
  | Some q => if truthy q then q else ""
  | None => ""
  end.

(** [handleSearch()]: the next [searchTerm] and the effects, in order. *)
Definition handleSearch (searchParams : list (string * string)) (searchTerm : string)
  : string * list Effect :=
  let params := searchParams in
  let params :=
    if truthy (trim searchTerm) then URLSearchParams.set "q" (trim searchTerm) params
    else URLSearchParams.delete "q" params in
  (searchTerm, [RouterPush params; OnFilter searchTerm]).

(** [handleClear()] *)
Definition handleClear (searchParams : list (string * string)) (searchTerm : string)
  : string * list Effect :=
  let params := URLSearchParams.delete "q" searchParams in
  ("", [RouterPush params; OnFilter ""]).

End ClashFilterUrl.

(** ** src/components/app-navbar/app-navbar.tsx *)

Module AppNavbar.

(** [String.prototype.startsWith] *)
Definition startsWith (s searchString : string) : bool :=
  String.prefix searchString s.

(** [isActive] of [linkClass(href)], on the current [pathname]. *)
Definition isActive (pathname href : string) : bool :=
  if String.eqb href "/" then String.eqb pathname href
  else startsWith pathname href.

(** [linkClass(href)]; [cn] is the class-name helper of the project's
    utilities. *)
Definition linkClass (cn : string → string → string) (pathname href : string) : string :=
  cn "px-3 py-2 rounded transition-colors"
     (if isActive pathname href then "bg-gray-700 text-white" else "hover:bg-gray-700").

End AppNavbar.

(** ** What holds of a debouncer between events *)

Module DebounceInv.

(** At most one timer is pending, and it is the one whose handle the
    closure holds. *)
Definition single (w : Debounce.World) : Prop :=
  match Debounce.timers w with
  | [] => True
  | [t] => Debounce.timeout w = Some (Debounce.handle t)
  | _ :: _ :: _ => False
  end.

(** The arguments in the events of a trace that are calls. *)
Definition call_args (events : list Debounce.Event) : list string :=
  flat_map (λ e, match e with Debounce.Call a => [a] | _ => [] end) events.

End DebounceInv.

(** ** Ways of using the hook *)

Module Usage.

(** A trace in which calls of [reload] never overlap: every call is
    issued while none is in flight, and is followed by its response. *)
Fixpoint sequential (in_flight : bool) (trace : list UseClashes.Event) : bool :=
  match trace with
  | [] => true
  | UseClashes.Issued _ :: rest => negb in_flight && sequential true rest
  | UseClashes.Arrived _ _ :: rest => in_flight && sequential false rest
  end.

(** What the hook guarantees between events of such a trace. *)
Definition consistent (in_flight : bool) (s : UseClashes.HookState) : Prop :=
  if in_flight then UseClashes.error s = None
  else UseClashes.error s ≠ None → UseClashes.clashes s = [].

End Usage.

(** ** Shapes of strings *)

Module StringShape.

(** A string that does not begin with white space. *)
Definition head_clean (s : string) : Prop :=
  match s with
  | EmptyString => True
  | String c _ => is_white_space c = false
  end.

(** The unit [c] occurs in [s]. *)
Fixpoint occurs (c : ascii) (s : string) : bool :=
  match s with
  | EmptyString => false
  | String a s' => Ascii.eqb a c || occurs c s'
  end.

(** An id as the action keeps it: not empty, no white space around it,
    no comma in it. *)
Definition clean_id (s : string) : Prop :=
  s ≠ "" ∧ trim s = s ∧ occurs "," s = false.

(** Ids written the way the form's placeholder shows: "1, 2, 3". *)
Fixpoint join_ids (ids : list string) : string :=
  match ids with
  | [] => ""
  | [i] => i
  | i :: rest => i +:+ ", " +:+ join_ids rest
  end.

End StringShape.

Import StringShape.

(** ** The spec's vocabulary *)

Module Spec.

(** [s] contains [t] as a substring. *)
Definition contains (s t : string) : Prop :=
  ∃ before after, s = before +:+ t +:+ after.

(** The lowercased field contains [t] as a substring; an absent field
    contains nothing. *)
Definition lowercased_contains (field : option string) (t : string) : Prop :=
  ∃ s, field = Some s ∧ contains (toLowerCase s) t.

(** Two terms that differ at most in the case of their letters. *)
Definition case_variant (t t' : string) : Prop :=
  toLowerCase t = toLowerCase t'.

(** A form field that is present and satisfies [p]. *)
Definition present (p : string → bool) (v : option string) : bool :=
  match v with
  | Some s => p s
  | None => false
  end.

(** The Create-Clash input of the data model: title of 1 to 100
    characters, description of at least 10, location, address, date and
    createdByPeerId non-empty, pictureUrl a valid URL. *)
Definition valid_input (is_valid_url : string → bool)
    (form : CreateClash.FormValues) : bool :=
  present (λ t, (1 <=? String.length t)%nat && (String.length t <=? 100)%nat)
    (CreateClash.fv_title form) &&
  present (λ d, (10 <=? String.length d)%nat) (CreateClash.fv_description form) &&
  present (λ l, (1 <=? String.length l)%nat) (CreateClash.fv_location form) &&
  present (λ a, (1 <=? String.length a)%nat) (CreateClash.fv_address form) &&
  present (λ d, (1 <=? String.length d)%nat) (CreateClash.fv_date form) &&
  present is_valid_url (CreateClash.fv_pictureUrl form) &&
  present (λ p, (1 <=? String.length p)%nat) (CreateClash.fv_createdByPeerId form).

End Spec.

(** ** Sample data *)

Module Samples.

Definition nobody : Peer := {| peer_id := "p0"; peer_name := "Nobody" |}.

Definition clash (i : string) (t d : option string) : Clash :=
  {| id := i; title := t; description := d; location := "Hall";
     address := "1 Main St"; date := "2025-09-12T18:00:00Z";
     pictureUrl := "https://example.com/p.png";
     createdByPeer := nobody; participants := [] |}.

Definition alpha : Clash := clash "1" (Some "Alpha Night") (Some "Chess with Alice").
Definition abacus : Clash := clash "2" (Some "Abacus Duel") (Some "Counting fast").
Definition untitled : Clash := clash "3" None (Some "Board games").
Definition blank : Clash := clash "4" None None.

Definition backend : Completion Actions.QueryData :=
  Return {| Actions.clashes := [alpha; abacus; untitled; blank] |}.

Definition form : CreateClash.FormValues :=
  {| CreateClash.fv_title := Some "Party";
     CreateClash.fv_description := Some "A long evening";
     CreateClash.fv_location := Some "Hall";
     CreateClash.fv_address := Some "1 Main St";
     CreateClash.fv_date := Some "2025-09-12";
     CreateClash.fv_pictureUrl := Some "https://example.com/p.png";
     CreateClash.fv_participantIds := None;
     CreateClash.fv_createdByPeerId := Some "p0" |}.

Definition with_title (t : option string) (f : CreateClash.FormValues)
  : CreateClash.FormValues :=
  {| CreateClash.fv_title := t;
     CreateClash.fv_description := CreateClash.fv_description f;
     CreateClash.fv_location := CreateClash.fv_location f;
     CreateClash.fv_address := CreateClash.fv_address f;
     CreateClash.fv_date := CreateClash.fv_date f;
     CreateClash.fv_pictureUrl := CreateClash.fv_pictureUrl f;
     CreateClash.fv_participantIds := CreateClash.fv_participantIds f;
     CreateClash.fv_createdByPeerId := CreateClash.fv_createdByPeerId f |}.

Definition with_description (d : option string) (f : CreateClash.FormValues)
  : CreateClash.FormValues :=
  {| CreateClash.fv_title := CreateClash.fv_title f;
     CreateClash.fv_description := d;
     CreateClash.fv_location := CreateClash.fv_location f;
     CreateClash.fv_address := CreateClash.fv_address f;
     CreateClash.fv_date := CreateClash.fv_date f;
     CreateClash.fv_pictureUrl := CreateClash.fv_pictureUrl f;
     CreateClash.fv_participantIds := CreateClash.fv_participantIds f;
     CreateClash.fv_createdByPeerId := CreateClash.fv_createdByPeerId f |}.

Definition with_pictureUrl (u : option string) (f : CreateClash.FormValues)
  : CreateClash.FormValues :=
  {| CreateClash.fv_title := CreateClash.fv_title f;
     CreateClash.fv_description := CreateClash.fv_description f;
     CreateClash.fv_location := CreateClash.fv_location f;
     CreateClash.fv_address := CreateClash.fv_address f;
     CreateClash.fv_date := CreateClash.fv_date f;
     CreateClash.fv_pictureUrl := u;
     CreateClash.fv_participantIds := CreateClash.fv_participantIds f;
     CreateClash.fv_createdByPeerId := CreateClash.fv_createdByPeerId f |}.

Definition with_participantIds (p : option string) (f : CreateClash.FormValues)
  : CreateClash.FormValues :=
  {| CreateClash.fv_title := CreateClash.fv_title f;
     CreateClash.fv_description := CreateClash.fv_description f;
     CreateClash.fv_location := CreateClash.fv_location f;
     CreateClash.fv_address := CreateClash.fv_address f;
     CreateClash.fv_date := CreateClash.fv_date f;
     CreateClash.fv_pictureUrl := CreateClash.fv_pictureUrl f;
     CreateClash.fv_participantIds := p;
     CreateClash.fv_createdByPeerId := CreateClash.fv_createdByPeerId f |}.

Definition form_data : CreateClash.CreateClashFormData :=
  {| CreateClash.d_title := "Party";
     CreateClash.d_description := "A long evening";
     CreateClash.d_location := "Hall";
     CreateClash.d_address := "1 Main St";
     CreateClash.d_date := "2025-09-12";
     CreateClash.d_pictureUrl := "https://example.com/p.png";
     CreateClash.d_participantIds := [];
     CreateClash.d_createdByPeerId := "p0" |}.

(** A stand-in for the platform's URL parser: accepts what starts with
    a scheme of the web. *)
Definition web_url (s : string) : bool :=
  String.prefix "http://" s || String.prefix "https://" s.

Definition created (i : string) (_ : CreateClash.CreateClashFormData)
  : Completion (option string) := Return (Some i).

End Samples.

(** * Properties *)

(** ** Strings *)

Section StringFacts.

Lemma lower_unit_white_space c : is_white_space (lower_unit c) = is_white_space c.
Proof. by destruct c as [[] [] [] [] [] [] [] []]. Qed.

Lemma whitespace_only_toLowerCase s :
  whitespace_only (toLowerCase s) = whitespace_only s.
Proof.
  induction s as [|c s IH]; simpl; [done|].
  by rewrite lower_unit_white_space, IH.
Qed.

Lemma trimStart_empty s : trimStart s = "" ↔ whitespace_only s = true.
Proof.
  induction s as [|c s IH]; simpl; [done|].
  destruct (is_white_space c); simpl; [done|]. split; discriminate.
Qed.

Lemma trimEnd_empty s : trimEnd s = "" ↔ whitespace_only s = true.
Proof.
  induction s as [|c s IH]; simpl; [done|].
  destruct (trimEnd s) eqn:E.
  - destruct (is_white_space c); simpl.
    + split; [intros _; by apply IH | done].
    + split; discriminate.
  - split; [discriminate|]. intros [_ H]%andb_prop. apply IH in H. discriminate.
Qed.

Lemma whitespace_only_trimStart s :
  whitespace_only (trimStart s) = whitespace_only s.
Proof.
  induction s as [|c s IH]; simpl; [done|].
  destruct (is_white_space c) eqn:E; simpl; [done|]. by rewrite E.
Qed.

Lemma trim_empty s : trim s = "" ↔ whitespace_only s = true.
Proof.
  unfold trim. by rewrite trimEnd_empty, whitespace_only_trimStart.
Qed.

Lemma trim_eqb_empty s : String.eqb (trim s) "" = whitespace_only s.
Proof.
  destruct (whitespace_only s) eqn:E.
  - apply trim_empty in E. by rewrite E.
  - apply String.eqb_neq. intros H%trim_empty. congruence.
Qed.

Lemma toLowerCase_trimStart s : toLowerCase (trimStart s) = trimStart (toLowerCase s).
Proof.
  induction s as [|c s IH]; simpl; [done|].
  rewrite lower_unit_white_space. by destruct (is_white_space c).
Qed.

Lemma toLowerCase_trimEnd s : toLowerCase (trimEnd s) = trimEnd (toLowerCase s).
Proof.
  induction s as [|c s IH]; simpl; [done|].
  rewrite <- IH, lower_unit_white_space.
  destruct (trimEnd s); simpl; [|done]. by destruct (is_white_space c).
Qed.

(** Lowercasing and trimming commute: the action computes
    [term.toLowerCase().trim()], the spec writes lowercase(trim(T)). *)
Lemma toLowerCase_trim s : toLowerCase (trim s) = trim (toLowerCase s).
Proof. unfold trim. by rewrite toLowerCase_trimEnd, toLowerCase_trimStart. Qed.

Lemma append_cons c s t : String c s +:+ t = String c (s +:+ t).
Proof. reflexivity. Qed.

Lemma prefix_spec t s : String.prefix t s = true ↔ ∃ after, s = t +:+ after.
Proof.
  revert s. induction t as [|a t IH]; intros s; simpl.
  - destruct s; split; eauto.
  - destruct s as [|b s]; simpl.
    + split; [done|]. by intros [? ?].
    + destruct (Ascii.ascii_dec a b) as [->|Hne].
      * rewrite IH. split; intros [after H]; exists after;
          rewrite append_cons in *; congruence.
      * split; [done|]. intros [after H]. rewrite append_cons in H. congruence.
Qed.

(** [includes] decides "contains as a substring". *)
Lemma includes_spec s t : includes s t = true ↔ Spec.contains s t.
Proof.
  unfold Spec.contains. induction s as [|c s IH].
  - change (includes "" t) with (String.prefix t "" || false).
    rewrite orb_false_r, prefix_spec. split.
    + intros [after H]. by exists "", after.
    + intros ([|? ?] & after & H); [eauto | by rewrite append_cons in H].
  - change (includes (String c s) t)
      with (String.prefix t (String c s) || includes s t).
    rewrite orb_true_iff, IH, prefix_spec. split.
    + intros [[after H] | (before & after & H)].
      * by exists "", after.
      * exists (String c before), after. by rewrite append_cons, H.
    + intros ([|c' before] & after & H).
      * left. eauto.
      * right. exists before, after. rewrite append_cons in H. congruence.
Qed.

End StringFacts.

Example toLowerCase_ex : toLowerCase "ALICE in Wonderland 42" = "alice in wonderland 42".
Proof. reflexivity. Qed.
Example trim_ex : trim "  a b  " = "a b".
Proof. reflexivity. Qed.
Example includes_ex :
  includes "board games" "d g" = true ∧ includes "abc" "" = true
  ∧ includes "" "" = true ∧ includes "abc" "cb" = false.
Proof. repeat split; reflexivity. Qed.
Example split_ex : split "," "p1, p2,,p3 ," = ["p1"; " p2"; ""; "p3 "; ""].
Proof. reflexivity. Qed.
Example pretty_status : pretty 500%nat = "500".
Proof. reflexivity. Qed.

(** ** filterClashes *)

Section FilterClashes.

Import Actions.

Lemma no_filter_guard term :
  negb (truthy term) || String.eqb (trim term) "" = whitespace_only term.
Proof.
  rewrite trim_eqb_empty. destruct term as [|c s]; [done|]. by simpl.
Qed.

(** What the action returns when the query succeeds. *)
Lemma filterClashes_fetched l term :
  filterClashes (Return {| clashes := l |}) term =
  ([], Return (if whitespace_only term then l
               else List.filter (keeps (trim (toLowerCase term))) l)).
Proof.
  unfold filterClashes, try_catch, await, mbind, M_bind, mret, M_ret.
  rewrite no_filter_guard. by destruct (whitespace_only term).
Qed.

(** What the action does when the query fails. *)
Lemma filterClashes_failed cause term :
  filterClashes (Throw cause) term =
  ([ConsoleError "Error filtering clashes:" cause],
   Throw (ErrorObject "Failed to filter clashes")).
Proof. reflexivity. Qed.

Lemma field_match_spec searchTerm field :
  field_match searchTerm field = true ↔ Spec.lowercased_contains field searchTerm.
Proof.
  unfold Spec.lowercased_contains. destruct field as [s|]; simpl.
  - rewrite includes_spec. split; [eauto|]. by intros (? & [= <-] & ?).
  - split; [done|]. by intros (? & ? & _).
Qed.

Lemma absent_contains searchTerm : ¬ Spec.lowercased_contains None searchTerm.
Proof. by intros (s & H & _). Qed.

Lemma keeps_spec searchTerm clash :
  keeps searchTerm clash = true ↔
  Spec.lowercased_contains (title clash) searchTerm ∨
  Spec.lowercased_contains (description clash) searchTerm.
Proof. unfold keeps. by rewrite orb_true_iff, !field_match_spec. Qed.

Lemma filter_sublist {A} (f : A → bool) (l : list A) : sublist (List.filter f l) l.
Proof.
  induction l as [|x l IH]; simpl; [constructor|].
  destruct (f x); by constructor.
Qed.

Lemma elem_of_filter {A} (f : A → bool) (l : list A) x :
  x ∈ List.filter f l ↔ x ∈ l ∧ f x = true.
Proof. rewrite !list_elem_of_In. apply filter_In. Qed.

End FilterClashes.

(** C1, as amended.  For every term T and every fetched list, the action
    returns a list in which a record C appears if and only if C is in the
    fetched list and either T is empty or consists only of white space
    (trim(T) is empty), or the lowercased title of C contains
    lowercase(trim(T)), or the lowercased description of C contains
    lowercase(trim(T)); an absent field contains nothing. *)
Theorem filterClashes_membership (l : list Clash) (T : string) :
  ∃ r, Actions.filterClashes (Return {| Actions.clashes := l |}) T = ([], Return r) ∧
       ∀ C, C ∈ r ↔
            C ∈ l ∧
            (trim T = "" ∨
             Spec.lowercased_contains (title C) (toLowerCase (trim T)) ∨
             Spec.lowercased_contains (description C) (toLowerCase (trim T))).
Proof.
  eexists. split; [apply filterClashes_fetched|]. intros C.
  rewrite toLowerCase_trim, trim_empty.
  destruct (whitespace_only T) eqn:E.
  - intuition.
  - rewrite elem_of_filter, keeps_spec. intuition discriminate.
Qed.

(** C1, as stated, fails: for the term of one space and a record with
    neither title nor description, the record is in the result, yet the
    term is not the empty string and no field contains anything. *)
Lemma filterClashes_membership_counterexample :
  Actions.filterClashes (Return {| Actions.clashes := [Samples.blank] |}) " "
    = ([], Return [Samples.blank]) ∧
  Samples.blank ∈ [Samples.blank] ∧
  ¬ (" " = "" ∨
     Spec.lowercased_contains (title Samples.blank) (toLowerCase (trim " ")) ∨
     Spec.lowercased_contains (description Samples.blank) (toLowerCase (trim " "))).
Proof.
  split; [reflexivity|]. split; [apply list_elem_of_here|].
  intros [H | [(s & H & _) | (s & H & _)]]; discriminate.
Qed.

(** C3.  For every term that is empty or consists only of white space,
    the action returns the fetched list itself: the same records in the
    same order. *)
Theorem filterClashes_blank_term (l : list Clash) (term : string) :
  term = "" ∨ whitespace_only term = true →
  Actions.filterClashes (Return {| Actions.clashes := l |}) term = ([], Return l).
Proof.
  intros H. rewrite filterClashes_fetched.
  destruct H as [-> | ->]; reflexivity.
Qed.

Lemma filterClashes_blank_term_witness :
  ("   " = "" ∨ whitespace_only "   " = true) ∧
  Actions.filterClashes Samples.backend "   "
  = ([], Return [Samples.alpha; Samples.abacus; Samples.untitled; Samples.blank]).
Proof.
  split; [right; reflexivity|].
  apply (filterClashes_blank_term
           [Samples.alpha; Samples.abacus; Samples.untitled; Samples.blank] "   ").
  right. reflexivity.
Defined.

(** C7.  Whatever the query fails with, the action throws one and the
    same error, [Error('Failed to filter clashes')]: two failing runs with
    different causes and terms surface identical errors.  The cause goes
    to the console only. *)
Theorem filterClashes_generic_failure (cause cause' : Thrown) (term term' : string) :
  snd (Actions.filterClashes (Throw cause) term)
    = snd (Actions.filterClashes (Throw cause') term') ∧
  snd (Actions.filterClashes (Throw cause) term)
    = Throw (ErrorObject "Failed to filter clashes") ∧
  fst (Actions.filterClashes (Throw cause) term)
    = [ConsoleError "Error filtering clashes:" cause].
Proof. by rewrite !filterClashes_failed. Qed.

(** C9.  Filtering is case-insensitive: on the same query outcome, a term
    and any case variant of it give the same result (and the same console
    output). *)
Theorem filterClashes_case_insensitive
    (query : Completion Actions.QueryData) (term term' : string) :
  Spec.case_variant term term' →
  Actions.filterClashes query term = Actions.filterClashes query term'.
Proof.
  unfold Spec.case_variant. intros H.
  destruct query as [[l]|cause]; [|by rewrite !filterClashes_failed].
  rewrite !filterClashes_fetched, <- H.
  by rewrite <- (whitespace_only_toLowerCase term),
             <- (whitespace_only_toLowerCase term'), H.
Qed.

Lemma filterClashes_case_insensitive_witness :
  Spec.case_variant "ALICE" "alice" ∧
  Actions.filterClashes Samples.backend "ALICE"
  = Actions.filterClashes Samples.backend "alice".
Proof.
  split; [reflexivity|].
  apply (filterClashes_case_insensitive Samples.backend "ALICE" "alice").
  reflexivity.
Defined.

(** C10.  For every term, the list the action returns is a subsequence
    of the fetched list: records are neither reordered, nor duplicated,
    nor introduced. *)
Theorem filterClashes_subsequence (l : list Clash) (term : string) :
  ∃ r, Actions.filterClashes (Return {| Actions.clashes := l |}) term = ([], Return r) ∧
       sublist r l.
Proof.
  eexists. split; [apply filterClashes_fetched|].
  destruct (whitespace_only term); [done | apply filter_sublist].
Qed.

Example filterClashes_alice :
  Actions.filterClashes Samples.backend " ALICE "  = ([], Return [Samples.alpha]).
Proof. reflexivity. Qed.
Example filterClashes_games :
  Actions.filterClashes Samples.backend "games" = ([], Return [Samples.untitled]).
Proof. reflexivity. Qed.

(** C6, as amended.  The action does not throw on a fetched list,
    whatever fields its records lack.  For every term that is not empty
    after trimming, a record of the fetched list without title is in the
    result exactly when its lowercased description contains the search
    term, and a record without description exactly when its lowercased
    title does; an absent field matches nothing. *)
Theorem filterClashes_missing_field (l : list Clash) (term : string) :
  trim term ≠ "" →
  ∃ r, Actions.filterClashes (Return {| Actions.clashes := l |}) term = ([], Return r) ∧
       ∀ C, C ∈ l →
            (title C = None →
             (C ∈ r ↔ Spec.lowercased_contains (description C) (toLowerCase (trim term))))
            ∧
            (description C = None →
             (C ∈ r ↔ Spec.lowercased_contains (title C) (toLowerCase (trim term)))).
Proof.
  intros Hterm. eexists. split; [apply filterClashes_fetched|]. intros C HC.
  destruct (whitespace_only term) eqn:E; [by apply trim_empty in E|].
  rewrite toLowerCase_trim, elem_of_filter, keeps_spec.
  pose proof (absent_contains (trim (toLowerCase term))) as Habsent.
  split; intros ->; tauto.
Qed.

Lemma filterClashes_missing_field_witness :
  trim "Games " ≠ "" ∧
  ∃ r, Actions.filterClashes Samples.backend "Games " = ([], Return r) ∧
       ∀ C, C ∈ [Samples.alpha; Samples.abacus; Samples.untitled; Samples.blank] →
            (title C = None →
             (C ∈ r ↔ Spec.lowercased_contains (description C) (toLowerCase (trim "Games "))))
            ∧
            (description C = None →
             (C ∈ r ↔ Spec.lowercased_contains (title C) (toLowerCase (trim "Games ")))).
Proof.
  split; [vm_compute; discriminate|].
  apply (filterClashes_missing_field
           [Samples.alpha; Samples.abacus; Samples.untitled; Samples.blank] "Games ").
  vm_compute; discriminate.
Defined.

(** C6, as stated, fails: two spaces are a non-empty term, the record
    without title and without description is in the result, yet its
    other field, being absent, does not match. *)
Lemma filterClashes_missing_field_counterexample :
  "  " ≠ "" ∧
  Actions.filterClashes
    (Return {| Actions.clashes := [Samples.untitled; Samples.blank] |}) "  "
    = ([], Return [Samples.untitled; Samples.blank]) ∧
  title Samples.blank = None ∧
  Samples.blank ∈ [Samples.untitled; Samples.blank] ∧
  ¬ Spec.lowercased_contains (description Samples.blank) (toLowerCase (trim "  ")).
Proof.
  split; [discriminate|]. split; [reflexivity|]. split; [reflexivity|].
  split; [apply list_elem_of_further, list_elem_of_here|].
  intros (s & H & _). discriminate.
Qed.

(** ** The route handler *)

Section RouteHandler.

Import Route.

(** The handler, with its console output, by the way the imported
    action completes. *)
Lemma GET_cases (filterClashes : string → M LogEntry (list Clash)) request :
  GET filterClashes request =
  match filterClashes (default "" (searchParams_term request)) with
  | (out, Return L) =>
      (out, Return {| status := 200; body := SuccessBody L (length L) |})
  | (out, Throw e) =>
      (out ++ [ConsoleError "API Error:" e],
       Return {| status := 500;
                 body := FailureBody "Failed to fetch clashes"
                           (message_or "Unknown error" e) |})
  end.
Proof.
  unfold GET, try_catch, mbind, M_bind, mret, M_ret.
  destruct (filterClashes _) as [out [L|e]]; simpl; [|done].
  by rewrite app_nil_r.
Qed.

(** The deployed handler answers a failed query with the action's
    generic message. *)
Lemma route_failed cause request :
  snd (route (Throw cause) request) =
  Return {| status := 500;
            body := FailureBody "Failed to fetch clashes" "Failed to filter clashes" |}.
Proof. unfold route. by rewrite GET_cases, filterClashes_failed. Qed.

Lemma route_fetched l request :
  ∃ L, snd (route (Return {| Actions.clashes := l |}) request) =
       Return {| status := 200; body := SuccessBody L (length L) |} ∧ sublist L l.
Proof.
  unfold route. rewrite GET_cases, filterClashes_fetched.
  eexists. split; [reflexivity|].
  destruct (whitespace_only _); [done | apply filter_sublist].
Qed.

End RouteHandler.

(** C4.  For every request and every behaviour of [filterClashes], the
    handler completes normally with a response: status 200 and body
    {success: true, data: L, count: length L} when [filterClashes(term)]
    returns L; status 500 and body {success: false, error: "Failed to
    fetch clashes", message} when it throws, where message is the thrown
    error's message, or "Unknown error" for a value that is no Error. *)
Theorem GET_envelope
    (filterClashes : string → M LogEntry (list Clash)) (request : Route.NextRequest) :
  (∃ response, snd (Route.GET filterClashes request) = Return response) ∧
  match snd (filterClashes (default "" (Route.searchParams_term request))) with
  | Return L =>
      snd (Route.GET filterClashes request) =
      Return {| Route.status := 200; Route.body := Route.SuccessBody L (length L) |}
  | Throw (ErrorObject message) =>
      snd (Route.GET filterClashes request) =
      Return {| Route.status := 500;
                Route.body := Route.FailureBody "Failed to fetch clashes" message |}
  | Throw (OtherValue _) =>
      snd (Route.GET filterClashes request) =
      Return {| Route.status := 500;
                Route.body := Route.FailureBody "Failed to fetch clashes" "Unknown error" |}
  end.
Proof.
  rewrite GET_cases.
  destruct (filterClashes _) as [out [L|[m|v]]]; simpl; eauto.
Qed.

Example GET_alice :
  snd (Route.route Samples.backend {| Route.searchParams_term := Some "alice" |})
  = Return {| Route.status := 200; Route.body := Route.SuccessBody [Samples.alpha] 1 |}.
Proof. reflexivity. Qed.

(** ** The hook *)

Section Hook.

Import UseClashes.

(** The ways the [try] block of [fetchClashes] ends. *)
Lemma body_rejected e : fetchClashes_body (Throw e) = Throw e.
Proof. reflexivity. Qed.

Lemma body_not_ok st j :
  fetchClashes_body (Return {| ok := false; status := st; json := j |})
  = Throw (ErrorObject ("HTTP error! status: " +:+ pretty st)).
Proof. reflexivity. Qed.

Lemma body_json_throws st e :
  fetchClashes_body (Return {| ok := true; status := st; json := Throw e |}) = Throw e.
Proof. reflexivity. Qed.

Lemma body_success st d m :
  fetchClashes_body
    (Return {| ok := true; status := st;
               json := Return {| success := true; data := d; message := m |} |})
  = Return d.
Proof. reflexivity. Qed.

Lemma body_failure_envelope st d m :
  fetchClashes_body
    (Return {| ok := true; status := st;
               json := Return {| success := false; data := d; message := Some m |} |})
  = Throw (ErrorObject (if truthy m then m else "Failed to fetch clashes")).
Proof. reflexivity. Qed.

Lemma settle_clashes fetched s :
  clashes (fetchClashes_settle fetched s) = settled_clashes fetched.
Proof.
  unfold fetchClashes_settle, settled_clashes.
  by destruct (fetchClashes_body fetched).
Qed.


Lemma settle_error fetched s :
  error (fetchClashes_settle fetched s) =
  match fetchClashes_body fetched with
  | Return _ => error s
  | Throw e => Some (message_or "An unknown error occurred" e)
  end.
Proof.
  unfold fetchClashes_settle. by destruct (fetchClashes_body fetched).
Qed.


Lemma begin_cells s :
  loading (fetchClashes_begin s) = true ∧ error (fetchClashes_begin s) = None
  ∧ clashes (fetchClashes_begin s) = clashes s.
Proof. done. Qed.

End Hook.

(** C5, as amended.  For every call of [reload]: before the fetch
    begins, loading is set to true and error to null.  When the fetch has
    settled, in whatever state the hook then is: on success (an ok
    response whose body parses to an envelope with success true) clashes
    is replaced by the data of the envelope and error is left as it is,
    so that it is null when the call ran on its own; on anything thrown
    (a rejected fetch, a response that is not ok, a body that does not
    parse, an envelope with success false) error is set to the thrown
    error's message, or to "An unknown error occurred" for a thrown value
    that is no Error, and clashes to the empty list; in every outcome
    loading ends up false. *)
Theorem reload_outcomes (fetched : Completion UseClashes.Response)
    (s s' : UseClashes.HookState) :
  let arrived := UseClashes.fetchClashes_settle fetched s' in
  let alone := UseClashes.reload fetched s in
  let caught (thrown : Thrown) : Prop :=
    let text :=
      match thrown with
      | ErrorObject message => message
      | OtherValue _ => "An unknown error occurred"
      end in
    UseClashes.error arrived = Some text ∧ UseClashes.clashes arrived = [] ∧
    UseClashes.error alone = Some text ∧ UseClashes.clashes alone = [] in
  (UseClashes.loading (UseClashes.fetchClashes_begin s) = true ∧
   UseClashes.error (UseClashes.fetchClashes_begin s) = None ∧
   UseClashes.clashes (UseClashes.fetchClashes_begin s) = UseClashes.clashes s) ∧
  (UseClashes.loading arrived = false ∧ UseClashes.loading alone = false) ∧
  match fetched with
  | Throw thrown => caught thrown
  | Return response =>
      if UseClashes.ok response then
        match UseClashes.json response with
        | Throw thrown => caught thrown
        | Return result =>
            if UseClashes.success result then
              UseClashes.clashes arrived = UseClashes.data result ∧
              UseClashes.error arrived = UseClashes.error s' ∧
              UseClashes.clashes alone = UseClashes.data result ∧
              UseClashes.error alone = None
            else
              caught
                (ErrorObject
                   match UseClashes.message result with
                   | Some text => if truthy text then text else "Failed to fetch clashes"
                   | None => "Failed to fetch clashes"
                   end)
        end
      else
        caught (ErrorObject
                  ("HTTP error! status: " +:+ pretty (UseClashes.status response)))
  end.
Proof.
  cbv zeta. split; [apply begin_cells|]. split; [done|].
  unfold UseClashes.reload.
  rewrite !settle_clashes, !settle_error. unfold UseClashes.settled_clashes.
  destruct fetched as [[ok st [[success d m]|thrown]]|thrown];
    [destruct ok; [destruct success|] | destruct ok |];
    cbn [UseClashes.ok UseClashes.json UseClashes.success UseClashes.data
           UseClashes.message UseClashes.status];
    try (by destruct thrown); done.
Qed.

(** C5, as stated, fails: [reload('a')] and [reload('ab')] are issued,
    the first fails, then the second succeeds with an ok response that
    carries one record.  The call for 'ab' succeeded and its data is in
    clashes, yet error is not null: it still holds the message of the
    failure that arrived in between. *)
Lemma reload_success_counterexample :
  UseClashes.fetch_route Samples.backend "ab"
  = Return {| UseClashes.ok := true; UseClashes.status := 200;
              UseClashes.json :=
                Return {| UseClashes.success := true;
                          UseClashes.data := [Samples.abacus];
                          UseClashes.message := None |} |} ∧
  UseClashes.run UseClashes.initial
    [UseClashes.Issued "a"; UseClashes.Issued "ab";
     UseClashes.Arrived "a" (Throw (ErrorObject "Failed to fetch"));
     UseClashes.Arrived "ab" (UseClashes.fetch_route Samples.backend "ab")]
  = {| UseClashes.clashes := [Samples.abacus];
       UseClashes.loading := false;
       UseClashes.error := Some "Failed to fetch" |} ∧
  Some "Failed to fetch" ≠ (None : option string).
Proof. split; [reflexivity|]. split; [reflexivity|]. discriminate. Qed.



(** A failed response followed by a successful one leaves the stale
    error in place: the continuation does not clear it. *)
Example error_survives_success :
  UseClashes.error
    (UseClashes.run UseClashes.initial
       [UseClashes.Issued "a"; UseClashes.Issued "ab";
        UseClashes.Arrived "a" (Throw (ErrorObject "Failed to fetch"));
        UseClashes.Arrived "ab" (UseClashes.fetch_route Samples.backend "ab")])
  = Some "Failed to fetch".
Proof. reflexivity. Qed.

(** ** The create-clash action *)

Section CreateClashFacts.

Import CreateClash.

Variable is_valid_url : string → bool.
Variable invalid_type_message : string.

(** A field reports nothing exactly when it is present and passes all
    its checks. *)
Lemma z_string_silent checks v :
  bool_decide (z_string is_valid_url invalid_type_message checks v = []) =
  Spec.present (λ s, forallb (λ c, check_passes is_valid_url c s) checks) v.
Proof.
  destruct v as [s|]; simpl; [|done].
  induction checks as [|c checks IH]; simpl; [done|].
  by destruct (check_passes is_valid_url c s).
Qed.

Lemma no_issues_valid form :
  forallb (λ '(_, msgs), bool_decide (msgs = []))
    (createClashSchema is_valid_url invalid_type_message (schema_input form))
  = Spec.valid_input is_valid_url form.
Proof.
  unfold createClashSchema, Spec.valid_input.
  cbn [forallb schema_input in_title in_description in_location in_address in_date
         in_pictureUrl in_createdByPeerId].
  rewrite !z_string_silent.
  destruct form as [[t|] [d|] [l|] [a|] [dt|] [u|] pids [p|]];
    cbn [Spec.present forallb check_passes fv_title fv_description fv_location
           fv_address fv_date fv_pictureUrl fv_createdByPeerId];
    rewrite ?andb_true_r, ?andb_false_r; try reflexivity.
  case_bool_decide; [|done].
  by rewrite andb_true_l, !andb_assoc.
Qed.

Lemma parsed_valid form :
  Spec.valid_input is_valid_url form = true →
  ∃ data, parsed (schema_input form) = Some data ∧
          d_participantIds data = participantIds_of (fv_participantIds form).
Proof.
  unfold Spec.valid_input. intros H.
  repeat (apply andb_prop in H as [H ?]).
  destruct form as [[t|] [d|] [l|] [a|] [dt|] [u|] pids [p|]];
    try discriminate.
  eexists. split; reflexivity.
Qed.

Lemma safeParse_valid form :
  Spec.valid_input is_valid_url form = true →
  ∃ data, safeParse is_valid_url invalid_type_message (schema_input form)
          = ParseSuccess data ∧
          d_participantIds data = participantIds_of (fv_participantIds form).
Proof.
  intros H. destruct (parsed_valid form H) as (data & Hd & Hp).
  exists data. split; [|done].
  unfold safeParse. by rewrite Hd, no_issues_valid, H.
Qed.

Lemma safeParse_invalid form :
  Spec.valid_input is_valid_url form = false →
  safeParse is_valid_url invalid_type_message (schema_input form)
  = ParseError
      (fieldErrors (createClashSchema is_valid_url invalid_type_message
                      (schema_input form))).
Proof.
  intros H. unfold safeParse. rewrite no_issues_valid, H.
  by destruct (parsed _).
Qed.

(** A field that reported messages is a key of [fieldErrors], with
    those messages. *)
Lemma fieldErrors_lookup (issues : list (string * list string)) field msgs :
  NoDup issues.*1 → (field, msgs) ∈ issues → msgs ≠ [] →
  fieldErrors issues !! field = Some msgs.
Proof.
  induction issues as [|[k m] issues IH]; simpl; intros Hnd Hin Hmsgs.
  - by apply not_elem_of_nil in Hin.
  - apply NoDup_cons in Hnd as [Hk Hnd].
    apply elem_of_cons in Hin as [[= <- <-] | Hin].
    + destruct msgs; [done|]. apply lookup_insert_eq.
    + assert (field ≠ k) as Hne.
      { intros ->. apply Hk. apply list_elem_of_fmap. by exists (k, msgs). }
      destruct m; [by apply IH|].
      rewrite lookup_insert_ne by done. by apply IH.
Qed.

Lemma schema_fields form :
  (createClashSchema is_valid_url invalid_type_message (schema_input form)).*1
  = ["title"; "description"; "location"; "address"; "date"; "pictureUrl";
     "participantIds"; "createdByPeerId"].
Proof. reflexivity. Qed.

Lemma schema_fields_NoDup form :
  NoDup (createClashSchema is_valid_url invalid_type_message (schema_input form)).*1.
Proof.
  rewrite schema_fields. apply (bool_decide_unpack _). by vm_compute.
Qed.

(** A field that reports something makes the form invalid and is found
    in the errors. *)
Lemma reported_field form field msgs :
  (field, msgs) ∈ createClashSchema is_valid_url invalid_type_message (schema_input form) →
  msgs ≠ [] →
  ∃ errs, safeParse is_valid_url invalid_type_message (schema_input form)
          = ParseError errs ∧ errs !! field = Some msgs.
Proof.
  intros Hin Hmsgs. eexists. split.
  - apply safeParse_invalid. rewrite <- no_issues_valid.
    apply not_true_is_false. intros Hall.
    rewrite forallb_forall in Hall.
    apply list_elem_of_In, Hall in Hin. by apply bool_decide_eq_true in Hin.
  - apply fieldErrors_lookup; [apply schema_fields_NoDup|done..].
Qed.

Lemma invalid_reports form :
  Spec.valid_input is_valid_url form = false →
  ∃ field msgs,
    (field, msgs) ∈ createClashSchema is_valid_url invalid_type_message (schema_input form)
    ∧ msgs ≠ [].
Proof.
  rewrite <- no_issues_valid.
  induction (createClashSchema _ _ _) as [|[k m] issues IH]; simpl; [done|].
  intros [Hm | Hrest]%andb_false_iff.
  - exists k, m. split; [apply list_elem_of_here|]. by apply bool_decide_eq_false in Hm.
  - destruct (IH Hrest) as (field & msgs & Hin & Hne).
    exists field, msgs. split; [by apply list_elem_of_further|done].
Qed.

Lemma createClash_invalid mutate form errs :
  safeParse is_valid_url invalid_type_message (schema_input form) = ParseError errs →
  createClash is_valid_url invalid_type_message mutate form =
  ([], Return {| errors := errs;
                 message := "Validation failed. Please check your inputs.";
                 values := form |}).
Proof. unfold createClash. by intros ->. Qed.

(** On a valid form the mutation is sent once.  Whatever it answers, the
    action returns the failure state: the error that [redirect] throws
    inside [try] is caught by the bare [catch] like any other. *)
Lemma createClash_valid mutate form data :
  safeParse is_valid_url invalid_type_message (schema_input form) = ParseSuccess data →
  createClash is_valid_url invalid_type_message mutate form =
  ([Mutate data],
   Return {| errors := ∅;
             message := "Failed to create clash. Please try again.";
             values := form |}).
Proof.
  unfold createClash. intros ->.
  unfold try_catch, mbind, M_bind, emit, await, redirect, throw, mret, M_ret.
  destruct (mutate data) as [[i|]|e]; [destruct (truthy i)|..]; reflexivity.
Qed.

End CreateClashFacts.

(** C8.  For every submitted form, whatever the URL parser and the
    mutation do.  A form that is not a valid Create-Clash input fails
    validation: the action returns a non-empty map of error lists keyed by
    field name and sends nothing over the network.  In particular an empty
    title, a description of fewer than 10 characters and a pictureUrl that
    the URL parser rejects each fail validation, with the field's message
    under the field's key.  A valid form is sent to the mutation, once,
    with participantIds the empty list when the field is omitted or empty,
    and otherwise the comma-separated pieces of the field, each trimmed,
    without the empty ones. *)
Theorem createClash_validation
    (is_valid_url : string → bool) (invalid_type_message : string)
    (mutate : CreateClash.CreateClashFormData → Completion (option string))
    (form : CreateClash.FormValues) :
  (Spec.valid_input is_valid_url form = false →
   ∃ errs,
     CreateClash.safeParse is_valid_url invalid_type_message
       (CreateClash.schema_input form) = CreateClash.ParseError errs ∧
     errs ≠ ∅ ∧
     CreateClash.createClash is_valid_url invalid_type_message mutate form =
     ([], Return {| CreateClash.errors := errs;
                    CreateClash.message := "Validation failed. Please check your inputs.";
                    CreateClash.values := form |})) ∧
  (CreateClash.fv_title form = Some "" →
   ∃ errs,
     CreateClash.safeParse is_valid_url invalid_type_message
       (CreateClash.schema_input form) = CreateClash.ParseError errs ∧
     errs !! "title" = Some ["Title is required"]) ∧
  (∀ d, CreateClash.fv_description form = Some d → (String.length d < 10)%nat →
   ∃ errs,
     CreateClash.safeParse is_valid_url invalid_type_message
       (CreateClash.schema_input form) = CreateClash.ParseError errs ∧
     errs !! "description" = Some ["Description must be at least 10 characters"]) ∧
  (∀ u, CreateClash.fv_pictureUrl form = Some u → is_valid_url u = false →
   ∃ errs,
     CreateClash.safeParse is_valid_url invalid_type_message
       (CreateClash.schema_input form) = CreateClash.ParseError errs ∧
     errs !! "pictureUrl" = Some ["Must be a valid URL"]) ∧
  (Spec.valid_input is_valid_url form = true →
   ∃ data,
     CreateClash.safeParse is_valid_url invalid_type_message
       (CreateClash.schema_input form) = CreateClash.ParseSuccess data ∧
     fst (CreateClash.createClash is_valid_url invalid_type_message mutate form)
       = [CreateClash.Mutate data] ∧
     (CreateClash.fv_participantIds form = None ∨
      CreateClash.fv_participantIds form = Some "" →
      CreateClash.d_participantIds data = []) ∧
     (∀ s, CreateClash.fv_participantIds form = Some s → s ≠ "" →
           CreateClash.d_participantIds data
           = List.filter truthy (trim <$> split "," s))).
Proof.
  repeat split.
  - intros Hinv.
    destruct (invalid_reports is_valid_url invalid_type_message form Hinv)
      as (field & msgs & Hin & Hne).
    destruct (reported_field _ _ _ _ _ Hin Hne) as (errs & Herrs & Hlook).
    exists errs. split; [done|]. split.
    + intros ->. by rewrite lookup_empty in Hlook.
    + by apply createClash_invalid.
  - intros Ht. apply reported_field; [|done].
    unfold CreateClash.createClashSchema. simpl CreateClash.in_title. rewrite Ht.
    apply list_elem_of_here.
  - intros d Hd Hlen. apply reported_field; [|done].
    unfold CreateClash.createClashSchema. simpl CreateClash.in_description. rewrite Hd.
    apply list_elem_of_further, elem_of_cons. left. f_equal.
    unfold CreateClash.z_string, CreateClash.check_passes. cbn [List.filter].
    destruct (Nat.leb_spec 10 (String.length d)) as [Hle|_]; [lia|done].
  - intros u Hu Hurl. apply reported_field; [|done].
    unfold CreateClash.createClashSchema. simpl CreateClash.in_pictureUrl. rewrite Hu.
    do 5 apply list_elem_of_further. apply elem_of_cons. left. f_equal.
    unfold CreateClash.z_string, CreateClash.check_passes. cbn [List.filter].
    by rewrite Hurl.
  - intros Hv.
    destruct (safeParse_valid is_valid_url invalid_type_message form Hv)
      as (data & Hd & Hp).
    exists data. split; [done|]. split; [|split].
    + by rewrite (createClash_valid _ _ _ _ _ Hd).
    + rewrite Hp. by intros [-> | ->].
    + intros s Hs Hne. rewrite Hp, Hs. simpl. by destruct s.
Qed.

Lemma createClash_validation_witness :
  (Spec.valid_input Samples.web_url Samples.form = true ∧
   CreateClash.fv_participantIds Samples.form = None ∧
   ∃ data,
     fst (CreateClash.createClash Samples.web_url "Expected string, received null"
            (Samples.created "42") Samples.form) = [CreateClash.Mutate data] ∧
     CreateClash.d_participantIds data = []) ∧
  (Spec.valid_input Samples.web_url (Samples.with_pictureUrl (Some "not-a-url") Samples.form)
     = false ∧
   ∃ errs,
     errs ≠ ∅ ∧
     CreateClash.createClash Samples.web_url "Expected string, received null"
       (Samples.created "42") (Samples.with_pictureUrl (Some "not-a-url") Samples.form)
     = ([], Return {| CreateClash.errors := errs;
                      CreateClash.message := "Validation failed. Please check your inputs.";
                      CreateClash.values :=
                        Samples.with_pictureUrl (Some "not-a-url") Samples.form |})).
Proof.
  split.
  - split; [reflexivity|]. split; [reflexivity|].
    destruct (createClash_validation Samples.web_url "Expected string, received null"
                (Samples.created "42") Samples.form) as (_ & _ & _ & _ & Hvalid).
    destruct (Hvalid eq_refl) as (data & _ & Hsent & Hnone & _).
    exists data. split; [exact Hsent|]. apply Hnone. left. reflexivity.
  - split; [reflexivity|].
    destruct (createClash_validation Samples.web_url "Expected string, received null"
                (Samples.created "42")
                (Samples.with_pictureUrl (Some "not-a-url") Samples.form))
      as (Hinvalid & _).
    destruct (Hinvalid eq_refl) as (errs & _ & Hne & Hret).
    exists errs. split; [exact Hne | exact Hret].
Defined.

Example createClash_sends :
  fst (CreateClash.createClash Samples.web_url "Expected string, received null"
         (Samples.created "42") Samples.form)
  = [CreateClash.Mutate Samples.form_data].
Proof. reflexivity. Qed.

Example createClash_short_description :
  ∃ errs,
    CreateClash.createClash Samples.web_url "Expected string, received null"
      (Samples.created "42") (Samples.with_description (Some "123456789") Samples.form)
    = ([], Return {| CreateClash.errors := errs;
                     CreateClash.message := "Validation failed. Please check your inputs.";
                     CreateClash.values :=
                       Samples.with_description (Some "123456789") Samples.form |}) ∧
    errs !! "description" = Some ["Description must be at least 10 characters"] ∧
    errs !! "title" = None.
Proof. eexists. split; [reflexivity|]. split; by vm_compute. Qed.

Example participantIds_split :
  CreateClash.participantIds_of (Some "p1, p2,,p3 , ") = ["p1"; "p2"; "p3"]
  ∧ CreateClash.participantIds_of (Some "") = []
  ∧ CreateClash.participantIds_of None = [].
Proof. repeat split; reflexivity. Qed.

Example createClash_empty_title :
  ∃ errs,
    CreateClash.createClash Samples.web_url "Expected string, received null"
      (Samples.created "42") (Samples.with_title (Some "") Samples.form)
    = ([], Return {| CreateClash.errors := errs;
                     CreateClash.message := "Validation failed. Please check your inputs.";
                     CreateClash.values := Samples.with_title (Some "") Samples.form |}) ∧
    errs !! "title" = Some ["Title is required"].
Proof. eexists. split; [reflexivity|]. by vm_compute. Qed.

Example createClash_participants :
  fst (CreateClash.createClash Samples.web_url "Expected string, received null"
         (Samples.created "42")
         (Samples.with_participantIds (Some "p1, p2,,p3 ") Samples.form))
  = [CreateClash.Mutate
       {| CreateClash.d_title := "Party";
          CreateClash.d_description := "A long evening";
          CreateClash.d_location := "Hall";
          CreateClash.d_address := "1 Main St";
          CreateClash.d_date := "2025-09-12";
          CreateClash.d_pictureUrl := "https://example.com/p.png";
          CreateClash.d_participantIds := ["p1"; "p2"; "p3"];
          CreateClash.d_createdByPeerId := "p0" |}].
Proof. reflexivity. Qed.

(** * Further properties of the code *)

(** ** More on strings *)

Section MoreStringFacts.

Lemma trimStart_head s : head_clean (trimStart s).
Proof.
  induction s as [|c s IH]; simpl; [done|].
  by destruct (is_white_space c) eqn:E.
Qed.

Lemma trimStart_clean s : head_clean s → trimStart s = s.
Proof. destruct s as [|c s]; simpl; [done|]. by intros ->. Qed.

Lemma trimEnd_head s : head_clean s → head_clean (trimEnd s).
Proof.
  destruct s as [|c s]; simpl; [done|]. intros Hc.
  destruct (trimEnd s); [by rewrite Hc | done].
Qed.

Lemma trimEnd_idem s : trimEnd (trimEnd s) = trimEnd s.
Proof.
  induction s as [|c s IH]; simpl; [done|].
  destruct (trimEnd s) as [|a r] eqn:E.
  - destruct (is_white_space c) eqn:Ec; simpl; [done|]. by rewrite Ec.
  - change (trimEnd (String c (String a r)))
      with (match trimEnd (String a r) with
            | EmptyString =>
                if is_white_space c then EmptyString else String c EmptyString
            | r' => String c r'
            end).
    by rewrite IH.
Qed.

Lemma trim_idem s : trim (trim s) = trim s.
Proof.
  unfold trim at 1.
  rewrite (trimStart_clean (trim s)) by apply trimEnd_head, trimStart_head.
  apply trimEnd_idem.
Qed.

Lemma whitespace_only_trim s : whitespace_only (trim s) = whitespace_only s.
Proof.
  destruct (whitespace_only s) eqn:E.
  - apply trim_empty in E. by rewrite E.
  - apply not_true_is_false. intros H%trim_empty.
    rewrite trim_idem in H. apply trim_empty in H. congruence.
Qed.

Lemma append_assoc s t u : (s +:+ t) +:+ u = s +:+ (t +:+ u).
Proof.
  induction s as [|c s IH]; [done|]. by rewrite !append_cons, IH.
Qed.

Lemma contains_trans s t u :
  Spec.contains s t → Spec.contains t u → Spec.contains s u.
Proof.
  intros (b1 & a1 & ->) (b2 & a2 & ->).
  exists (b1 +:+ b2), (a2 +:+ a1). by rewrite !append_assoc.
Qed.

Lemma contains_empty s : Spec.contains "" s → s = "".
Proof.
  intros ([|? ?] & after & H); [|by rewrite append_cons in H].
  destruct s; [done|]. by rewrite append_cons in H.
Qed.

Lemma filter_narrows {A} (f g : A → bool) (l : list A) :
  (∀ x, f x = true → g x = true) → sublist (List.filter f l) (List.filter g l).
Proof.
  intros Hfg. induction l as [|x l IH]; simpl; [constructor|].
  destruct (f x) eqn:Ef.
  - rewrite (Hfg x Ef). by constructor.
  - destruct (g x); [by constructor | done].
Qed.

End MoreStringFacts.

(** ** filterClashes, the route and the hook together *)

Lemma filterClashes_trim (query : Completion Actions.QueryData) (term : string) :
  Actions.filterClashes query (trim term) = Actions.filterClashes query term.
Proof.
  destruct query as [[l]|cause]; [|by rewrite !filterClashes_failed].
  rewrite !filterClashes_fetched, whitespace_only_trim.
  by rewrite <- (toLowerCase_trim (trim term)), trim_idem, toLowerCase_trim.
Qed.

Lemma url_term_default term : default "" (UseClashes.url_term term) = trim term.
Proof. unfold UseClashes.url_term. by destruct (trim term). Qed.

(** X1.  White space around the term does not matter: on the same query
    outcome, a term and its trimmed form give the same result. *)
Theorem filterClashes_padding (query : Completion Actions.QueryData) (term : string) :
  Actions.filterClashes query (trim term) = Actions.filterClashes query term.
Proof. apply filterClashes_trim. Qed.

(** X2.  Narrowing the term narrows the result: when the search term of
    [term'] (lowercased and trimmed) contains that of [term] as a
    substring, the result for [term'] is a subsequence of the result for
    [term]. *)
Theorem filterClashes_narrowing (l : list Clash) (term term' : string) :
  Spec.contains (trim (toLowerCase term')) (trim (toLowerCase term)) →
  ∃ r r',
    Actions.filterClashes (Return {| Actions.clashes := l |}) term = ([], Return r) ∧
    Actions.filterClashes (Return {| Actions.clashes := l |}) term' = ([], Return r') ∧
    sublist r' r.
Proof.
  intros Hsub. do 2 eexists.
  split; [apply filterClashes_fetched|]. split; [apply filterClashes_fetched|].
  destruct (whitespace_only term') eqn:E'.
  - assert (whitespace_only term = true) as ->; [|done].
    rewrite <- whitespace_only_toLowerCase in E'. apply trim_empty in E'.
    rewrite E' in Hsub. apply contains_empty in Hsub.
    apply trim_empty in Hsub. by rewrite whitespace_only_toLowerCase in Hsub.
  - destruct (whitespace_only term); [apply filter_sublist|].
    apply filter_narrows. intros C. rewrite !keeps_spec.
    unfold Spec.lowercased_contains.
    intros [(s & Hs & Hc) | (s & Hs & Hc)]; [left | right];
      exists s; (split; [done|]); by eapply contains_trans.
Qed.

Lemma filterClashes_narrowing_witness :
  Spec.contains (trim (toLowerCase "Alice ")) (trim (toLowerCase " ali")) ∧
  ∃ r r',
    Actions.filterClashes Samples.backend " ali" = ([], Return r) ∧
    Actions.filterClashes Samples.backend "Alice " = ([], Return r') ∧
    sublist r' r.
Proof.
  assert (Spec.contains (trim (toLowerCase "Alice ")) (trim (toLowerCase " ali"))) as H.
  { by exists "", "ce". }
  split; [exact H|].
  exact (filterClashes_narrowing
           [Samples.alpha; Samples.abacus; Samples.untitled; Samples.blank]
           " ali" "Alice " H).
Defined.

(** X3.  The deployed route, for every request: when the query succeeds
    it answers 200 with a subsequence of the backend list as data and the
    length of that data as count, and writes nothing to the console; when
    the query fails it answers 500 with the fixed error and the fixed
    message "Failed to filter clashes", whatever the cause, which goes to
    the console only. *)
Theorem route_response (query : Completion Actions.QueryData) (request : Route.NextRequest) :
  match query with
  | Return d =>
      ∃ L, Route.route query request =
           ([], Return {| Route.status := 200;
                          Route.body := Route.SuccessBody L (length L) |}) ∧
           sublist L (Actions.clashes d) ∧ (length L ≤ length (Actions.clashes d))%nat
  | Throw cause =>
      Route.route query request =
      ([ConsoleError "Error filtering clashes:" cause;
        ConsoleError "API Error:" (ErrorObject "Failed to filter clashes")],
       Return {| Route.status := 500;
                 Route.body := Route.FailureBody "Failed to fetch clashes"
                                 "Failed to filter clashes" |})
  end.
Proof.
  destruct query as [[l]|cause]; [|reflexivity].
  unfold Route.route. rewrite GET_cases, filterClashes_fetched.
  eexists. split; [reflexivity|]. simpl.
  assert (sublist (if whitespace_only (default "" (Route.searchParams_term request))
                   then l
                   else List.filter
                          (Actions.keeps
                             (trim (toLowerCase
                                      (default "" (Route.searchParams_term request))))) l)
            l) as Hsub.
  { destruct (whitespace_only _); [done | apply filter_sublist]. }
  split; [exact Hsub | by apply sublist_length].
Qed.

(** X4.  A request without the term parameter, or with a term that is
    empty or white space only, gets the whole backend list, in backend
    order, with its length as count. *)
Theorem route_without_term (l : list Clash) (request : Route.NextRequest) :
  whitespace_only (default "" (Route.searchParams_term request)) = true →
  Route.route (Return {| Actions.clashes := l |}) request =
  ([], Return {| Route.status := 200; Route.body := Route.SuccessBody l (length l) |}).
Proof.
  intros H. unfold Route.route. by rewrite GET_cases, filterClashes_fetched, H.
Qed.

Lemma route_without_term_witness :
  whitespace_only (default "" (Route.searchParams_term {| Route.searchParams_term := None |}))
    = true ∧
  Route.route Samples.backend {| Route.searchParams_term := None |} =
  ([], Return {| Route.status := 200;
                 Route.body :=
                   Route.SuccessBody
                     [Samples.alpha; Samples.abacus; Samples.untitled; Samples.blank] 4 |}).
Proof.
  split; [reflexivity|].
  apply (route_without_term
           [Samples.alpha; Samples.abacus; Samples.untitled; Samples.blank]
           {| Route.searchParams_term := None |}).
  reflexivity.
Defined.

(** X5.  Through the route, a failed query reaches the hook as a
    response that is not ok: whatever the cause, the term and the state,
    the hook ends with error "HTTP error! status: 500", no clashes and
    loading false.  Neither the cause nor the message of the route's
    envelope is shown. *)
Theorem hook_backend_failure (cause : Thrown) (term : string) (s : UseClashes.HookState) :
  UseClashes.fetchClashes_settle (UseClashes.fetch_route (Throw cause) term) s =
  {| UseClashes.clashes := [];
     UseClashes.loading := false;
     UseClashes.error := Some "HTTP error! status: 500" |}.
Proof. reflexivity. Qed.

(** X6.  Through the route, a successful query gives the hook exactly
    the list that the action computes for the term as typed: the hook's
    trimming of the term and its omission of an empty term change
    nothing. *)
Theorem hook_shows_filtered (l : list Clash) (term : string) :
  ∃ r,
    Actions.filterClashes (Return {| Actions.clashes := l |}) term = ([], Return r) ∧
    UseClashes.fetchClashes_body
      (UseClashes.fetch_route (Return {| Actions.clashes := l |}) term) = Return r.
Proof.
  eexists. split; [apply filterClashes_fetched|].
  unfold UseClashes.fetch_route, Route.route.
  rewrite GET_cases. cbn [Route.searchParams_term].
  rewrite url_term_default, filterClashes_trim, filterClashes_fetched.
  reflexivity.
Qed.

(** X7.  When calls of [reload] never overlap (each response arrives
    before the next call), the hook, started in its initial state, never
    holds an error together with a non-empty list, at any point of the
    trace. *)
Theorem sequential_consistent (trace : list UseClashes.Event) :
  Usage.sequential false trace = true →
  (UseClashes.error (UseClashes.run UseClashes.initial trace) ≠ None →
   UseClashes.clashes (UseClashes.run UseClashes.initial trace) = []).
Proof.
  assert (∀ tr b s, Usage.consistent b s → Usage.sequential b tr = true →
                    UseClashes.error (UseClashes.run s tr) ≠ None →
                    UseClashes.clashes (UseClashes.run s tr) = []) as Hgen.
  { induction tr as [|e tr IH]; intros b s Hs Hseq.
    - destruct b; simpl in *; [by rewrite Hs | done].
    - destruct e as [t|t fetched]; simpl in Hseq;
        apply andb_prop in Hseq as [Hb Hseq].
      + apply (IH true); [reflexivity | done].
      + destruct b; [|done]. apply (IH false); [|done].
        unfold Usage.consistent in *. cbn [UseClashes.step].
        rewrite settle_error, settle_clashes. unfold UseClashes.settled_clashes.
        by destruct (UseClashes.fetchClashes_body fetched). }
  apply (Hgen trace false). by intros [].
Qed.

Lemma sequential_consistent_witness :
  Usage.sequential false
    [UseClashes.Issued "";
     UseClashes.Arrived "" (UseClashes.fetch_route Samples.backend "");
     UseClashes.Issued "ab";
     UseClashes.Arrived "ab" (Throw (ErrorObject "Failed to fetch"))] = true ∧
  (UseClashes.error
     (UseClashes.run UseClashes.initial
        [UseClashes.Issued "";
         UseClashes.Arrived "" (UseClashes.fetch_route Samples.backend "");
         UseClashes.Issued "ab";
         UseClashes.Arrived "ab" (Throw (ErrorObject "Failed to fetch"))]) ≠ None →
   UseClashes.clashes
     (UseClashes.run UseClashes.initial
        [UseClashes.Issued "";
         UseClashes.Arrived "" (UseClashes.fetch_route Samples.backend "");
         UseClashes.Issued "ab";
         UseClashes.Arrived "ab" (Throw (ErrorObject "Failed to fetch"))]) = []).
Proof.
  split; [reflexivity|].
  apply (sequential_consistent
           [UseClashes.Issued "";
            UseClashes.Arrived "" (UseClashes.fetch_route Samples.backend "");
            UseClashes.Issued "ab";
            UseClashes.Arrived "ab" (Throw (ErrorObject "Failed to fetch"))]).
  reflexivity.
Defined.

(** ** The list component *)

(** X8.  What ClashList does, by the state of the hook.  With an error
    that is a non-empty string it renders the error panel with that text
    and nothing else.  Otherwise (no error, or the empty string as error):
    while loading it renders the page with six placeholders; when not
    loading and there are clashes it renders the page with the grid of all
    clashes and the results counter; when not loading and there are no
    clashes it throws a ReferenceError instead of rendering the empty
    state, because the component uses [Search] without importing it.  The
    filter of a rendered page gets the loading flag. *)
Theorem ClashList_views (s : UseClashes.HookState) :
  match ClashList.ClashList s with
  | Return (ClashList.ErrorPanel text) => UseClashes.error s = Some text ∧ text ≠ ""
  | Return (ClashList.Page filter_loading skeletons grid counter) =>
      (UseClashes.error s = None ∨ UseClashes.error s = Some "") ∧
      filter_loading = UseClashes.loading s ∧
      ((UseClashes.loading s = true ∧
        skeletons = Some 6%nat ∧ grid = None ∧ counter = None)
       ∨
       (UseClashes.loading s = false ∧ UseClashes.clashes s ≠ [] ∧
        skeletons = None ∧
        grid = Some (UseClashes.clashes s) ∧
        counter = Some (ClashList.counter_text (length (UseClashes.clashes s)))))
  | Throw e =>
      (UseClashes.error s = None ∨ UseClashes.error s = Some "") ∧
      UseClashes.loading s = false ∧ UseClashes.clashes s = [] ∧
      e = ClashList.ReferenceError "Search" ∧ ∃ message, e = ErrorObject message
  end.
Proof.
  assert (∀ cl ld er, er = None ∨ er = Some "" →
            match ClashList.ClashList
                    {| UseClashes.clashes := cl; UseClashes.loading := ld;
                       UseClashes.error := er |} with
            | Return (ClashList.ErrorPanel _) => False
            | Return (ClashList.Page fl sk grid counter) =>
                fl = ld ∧
                ((ld = true ∧ sk = Some 6%nat ∧ grid = None ∧ counter = None)
                 ∨ (ld = false ∧ cl ≠ [] ∧ sk = None ∧ grid = Some cl
                    ∧ counter = Some (ClashList.counter_text (length cl))))
            | Throw e =>
                ld = false ∧ cl = [] ∧ e = ClashList.ReferenceError "Search"
                ∧ ∃ message, e = ErrorObject message
            end) as Hpage.
  { intros cl ld er Her. unfold ClashList.ClashList.
    destruct Her as [-> | ->]; cbn [UseClashes.error truthy];
      cbn [UseClashes.loading UseClashes.clashes];
      (destruct ld; [by split; [|left]|]);
      (destruct cl as [|c cl]; cbn [negb andb length Nat.eqb Nat.ltb Nat.leb];
       [by repeat split; eexists | by split; [|right]]). }
  destruct s as [cl ld [[|c e]|]].
  - specialize (Hpage cl ld (Some "") (or_intror eq_refl)).
    destruct (ClashList.ClashList _) as [[text|fl sk grid counter]|e]; [done| |];
      cbn [UseClashes.error UseClashes.loading UseClashes.clashes].
    + destruct Hpage as [-> H]. auto.
    + destruct Hpage as (-> & -> & H). auto.
  - done.
  - specialize (Hpage cl ld None (or_introl eq_refl)).
    destruct (ClashList.ClashList _) as [[text|fl sk grid counter]|e]; [done| |];
      cbn [UseClashes.error UseClashes.loading UseClashes.clashes].
    + destruct Hpage as [-> H]. auto.
    + destruct Hpage as (-> & -> & H). auto.
Qed.

(** ** The filter with the search button *)

Section ClashFilterFacts.

Import ClashFilter.

Lemma run_cons st e rest :
  run st (e :: rest) =
  (fst (run (fst (handle st e)) rest),
   snd (handle st e) ++ snd (run (fst (handle st e)) rest)).
Proof.
  cbn [run]. destruct (handle st e) as [st' calls]. cbn [fst snd].
  by destruct (run st' rest) as [final calls'].
Qed.

End ClashFilterFacts.

(** X9.  Typing never calls [onFilter]: through any sequence of changes
    of the input and presses of keys other than Enter, no call is made,
    from any state of the component. *)
Theorem typing_is_silent (searchTerm : string) (events : list ClashFilter.Event) :
  Forall (λ e, match e with
               | ClashFilter.Change _ => True
               | ClashFilter.KeyPress key => key ≠ "Enter"
               | _ => False
               end) events →
  snd (ClashFilter.run searchTerm events) = [].
Proof.
  intros H. revert searchTerm.
  induction H as [|e events He _ IH]; intros st; [done|].
  rewrite run_cons. simpl. rewrite IH.
  destruct e as [v|k| |]; try done. simpl.
  unfold ClashFilter.handleKeyPress.
  by apply String.eqb_neq in He as ->.
Qed.

Lemma typing_is_silent_witness :
  snd (ClashFilter.run ""
         [ClashFilter.Change "a"; ClashFilter.KeyPress "b"; ClashFilter.Change "ab"]) = [].
Proof.
  apply (typing_is_silent ""
           [ClashFilter.Change "a"; ClashFilter.KeyPress "b"; ClashFilter.Change "ab"]).
  repeat constructor; discriminate.
Defined.

(** X10.  Every term the component passes to [onFilter] is the empty
    string, the term it started with, or a value that the input was
    changed to. *)
Theorem filter_terms_come_from_input
    (searchTerm : string) (events : list ClashFilter.Event) (term : string) :
  term ∈ snd (ClashFilter.run searchTerm events) →
  term = "" ∨ term = searchTerm ∨ ClashFilter.Change term ∈ events.
Proof.
  revert searchTerm. induction events as [|e events IH]; intros st.
  - simpl. by intros ?%not_elem_of_nil.
  - rewrite run_cons. cbn [snd].
    intros [Hnow | Hlater]%elem_of_app.
    + destruct e as [v|k| |]; simpl in Hnow.
      * by apply not_elem_of_nil in Hnow.
      * unfold ClashFilter.handleKeyPress in Hnow.
        destruct (String.eqb k "Enter"); simpl in Hnow.
        -- apply list_elem_of_singleton in Hnow. auto.
        -- by apply not_elem_of_nil in Hnow.
      * apply list_elem_of_singleton in Hnow. auto.
      * apply list_elem_of_singleton in Hnow. auto.
    + destruct (IH _ Hlater) as [H | [H | H]]; [by left | | by right; right; right].
      destruct e as [v|k| |]; simpl in H.
      * right; right. subst. left.
      * unfold ClashFilter.handleKeyPress in H.
        destruct (String.eqb k "Enter"); simpl in H; auto.
      * auto.
      * auto.
Qed.

Lemma filter_terms_come_from_input_witness :
  "ab" ∈ snd (ClashFilter.run ""
                [ClashFilter.Change "a"; ClashFilter.Change "ab"; ClashFilter.ClickSearch]) ∧
  ("ab" = "" ∨ "ab" = "" ∨
   ClashFilter.Change "ab" ∈
     [ClashFilter.Change "a"; ClashFilter.Change "ab"; ClashFilter.ClickSearch]).
Proof.
  assert ("ab" ∈ snd (ClashFilter.run ""
                        [ClashFilter.Change "a"; ClashFilter.Change "ab";
                         ClashFilter.ClickSearch])) as H.
  { simpl. apply list_elem_of_here. }
  split; [exact H|].
  exact (filter_terms_come_from_input ""
           [ClashFilter.Change "a"; ClashFilter.Change "ab"; ClashFilter.ClickSearch]
           "ab" H).
Defined.

(** X11.  While the [loading] prop stays true the component offers at
    most one interaction: the input and the Search button are disabled,
    and the clear button, which exists only for a non-empty term, empties
    the input and so removes itself.  Any sequence of interactions offered
    under [loading = true] is therefore empty, or is a single click on the
    clear button from a non-empty term, which leaves the input empty and
    makes the one call [onFilter('')]. *)
Theorem while_loading_at_most_clear
    (searchTerm : string) (events : list ClashFilter.Event) :
  ClashFilter.offered_all true searchTerm events = true →
  events = [] ∨
  (events = [ClashFilter.ClickClear] ∧ searchTerm ≠ "" ∧
   ClashFilter.run searchTerm events = ("", [""])).
Proof.
  destruct events as [|e rest]; [by left|].
  cbn [ClashFilter.offered_all]. intros [He Hrest]%andb_prop. right.
  destruct e; try discriminate.
  cbn [ClashFilter.handle ClashFilter.handleClear fst] in Hrest.
  destruct rest as [|e' rest].
  - split; [done|]. split; [|done]. intros ->. discriminate.
  - cbn [ClashFilter.offered_all] in Hrest. apply andb_prop in Hrest as [He' _].
    destruct e'; discriminate.
Qed.

Lemma while_loading_at_most_clear_witness :
  ClashFilter.offered_all true "ab" [ClashFilter.ClickClear] = true ∧
  ([ClashFilter.ClickClear] = [] ∨
   ([ClashFilter.ClickClear] = [ClashFilter.ClickClear] ∧ "ab" ≠ "" ∧
    ClashFilter.run "ab" [ClashFilter.ClickClear] = ("", [""]))).
Proof.
  split; [reflexivity|].
  apply (while_loading_at_most_clear "ab" [ClashFilter.ClickClear]). reflexivity.
Defined.

(** Under [loading = true] a second click on the clear button is not on
    offer, nor is a search. *)
Example while_loading_not_offered :
  ClashFilter.offered_all true "ab" [ClashFilter.ClickClear; ClashFilter.ClickClear] = false
  ∧ ClashFilter.offered_all true "ab" [ClashFilter.ClickSearch] = false
  ∧ ClashFilter.offered_all false "ab" [ClashFilter.Change "abc"; ClashFilter.ClickSearch]
    = true.
Proof. repeat split; reflexivity. Qed.

(** ** The debounce utility *)

Section DebounceFacts.

Import Debounce DebounceInv.

Variable wait : nat.

Lemma run_app w tr tr' : run wait w (tr ++ tr') = run wait (run wait w tr) tr'.
Proof. unfold run. apply fold_left_app. Qed.

Lemma fresh_single : single fresh.
Proof. done. Qed.

Lemma clearTimeout_own t :
  clearTimeout (handle t) [t] = [].
Proof. unfold clearTimeout. simpl. by rewrite Nat.eqb_refl. Qed.

(** After a call exactly the new timer is pending. *)
Lemma debounced_timers a w :
  single w →
  timers (debounced wait a w)
  = [{| handle := next_handle w; remaining := wait; args := a |}].
Proof.
  unfold single, debounced. simpl.
  destruct (timers w) as [|t [|t' ts]] eqn:E; [|intros ->|done].
  - by destruct (timeout w).
  - by rewrite clearTimeout_own.
Qed.

Lemma cancel_timers w : single w → timers (cancel w) = [] ∧ timeout (cancel w) = None.
Proof.
  unfold single, cancel.
  destruct (timers w) as [|t [|t' ts]] eqn:E; [|intros Ht|done].
  - intros _. by destruct (timeout w) eqn:Eto.
  - rewrite Ht. cbn [timers timeout]. by rewrite ?E, clearTimeout_own.
Qed.

Lemma step_single w e : single w → single (step wait w e).
Proof.
  intros Hw. destruct e as [a| |]; simpl.
  - unfold single. by rewrite debounced_timers.
  - unfold single. by destruct (cancel_timers w Hw) as [-> _].
  - unfold single, tick in *. simpl.
    destruct (timers w) as [|t [|t' ts]]; [done| |done].
    simpl. by destruct (due t).
Qed.

Lemma run_single w tr : single w → single (run wait w tr).
Proof.
  revert w. induction tr as [|e tr IH]; intros w Hw; [done|].
  apply IH. by apply step_single.
Qed.

(** Idle time shorter than what a lone timer has left invokes nothing. *)
Lemma ticks_pending k h r a w :
  timers w = [{| handle := h; remaining := r; args := a |}] → k < r →
  timers (run wait w (replicate k Tick))
  = [{| handle := h; remaining := r - k; args := a |}] ∧
  timeout (run wait w (replicate k Tick)) = timeout w ∧
  invoked (run wait w (replicate k Tick)) = invoked w.
Proof.
  revert w r. induction k as [|k IH]; intros w r Hw Hk; simpl.
  - by rewrite Hw, Nat.sub_0_r.
  - destruct (IH (tick w) (pred r)) as (Ht & Hto & Hi); [|lia|].
    + unfold tick. simpl. rewrite Hw. simpl. unfold due. simpl.
      destruct (Nat.leb_spec r 1); [lia|done].
    + rewrite Ht, Hto, Hi. split; [do 2 f_equal; lia|]. split; [done|].
      unfold tick. simpl. rewrite Hw. simpl. unfold due. simpl.
      destruct (Nat.leb_spec r 1); [lia|]. simpl. by rewrite app_nil_r.
Qed.

(** Idle time equal to what a lone timer has left invokes its callback,
    once. *)
Lemma ticks_fire h r a w :
  timers w = [{| handle := h; remaining := r; args := a |}] → (1 ≤ r)%nat →
  timers (run wait w (replicate r Tick)) = [] ∧
  invoked (run wait w (replicate r Tick)) = invoked w ++ [a].
Proof.
  intros Hw Hr. replace r with (pred r + 1) at 1 2 by lia.
  rewrite replicate_add, run_app.
  destruct (ticks_pending (pred r) h r a w Hw) as (Ht & _ & Hi); [lia|].
  simpl. unfold tick. simpl. rewrite Ht, Hi. simpl. unfold due. simpl.
  destruct (Nat.leb_spec (r - pred r) 1); [done|lia].
Qed.

Lemma ticks_idle k w :
  timers w = [] → run wait w (replicate k Tick) = w.
Proof.
  revert w. induction k as [|k IH]; intros w Hw; simpl; [done|].
  assert (tick w = w) as ->; [|by apply IH].
  destruct w as [to ts nh inv]. simpl in Hw. subst ts.
  unfold tick. simpl. by rewrite app_nil_r.
Qed.

(** A burst whose gaps are all shorter than [wait] invokes nothing. *)
Lemma burst_silent calls w :
  single w → Forall (λ '(_, gap), gap < wait) calls →
  invoked (run wait w (burst calls)) = invoked w.
Proof.
  intros Hw Hgaps. revert w Hw.
  induction Hgaps as [|[a gap] calls Hgap _ IH]; intros w Hw; [done|].
  unfold burst. simpl. fold (burst calls). rewrite run_app.
  pose proof (debounced_timers a w Hw) as Ht.
  destruct (ticks_pending gap _ _ _ _ Ht Hgap) as (Ht' & Hto & Hi).
  rewrite IH.
  - by rewrite Hi.
  - unfold single. by rewrite Ht', Hto.
Qed.

Lemma call_args_cons e tr : call_args (e :: tr) = call_args [e] ++ call_args tr.
Proof. unfold call_args. simpl. by rewrite app_nil_r. Qed.

(** One event: the invoked and the pending arguments come from before or
    from the event, and grow by at most the event's call. *)
Lemma step_accounting e w :
  single w →
  (length (invoked (step wait w e)) + length (timers (step wait w e))
   ≤ length (invoked w) + length (timers w) + length (call_args [e]))%nat ∧
  ∀ a, a ∈ invoked (step wait w e) ∨ a ∈ args <$> timers (step wait w e) →
       a ∈ invoked w ∨ a ∈ args <$> timers w ∨ a ∈ call_args [e].
Proof.
  intros Hw. destruct e as [b| |]; cbn [step].
  - rewrite (debounced_timers b w Hw). cbn. split; [lia|].
    intros a [Ha | Ha]; [by left|]. by right; right.
  - destruct (cancel_timers w Hw) as [Ht _]. rewrite Ht.
    assert (invoked (cancel w) = invoked w) as ->.
    { unfold cancel. by destruct (timeout w). }
    cbn. split; [lia|]. intros a [Ha | Ha]; [by left|].
    by apply not_elem_of_nil in Ha.
  - unfold single in Hw.
    destruct (timers w) as [|t [|t' ts]] eqn:E; [| |done];
      unfold tick; cbn [invoked timers]; rewrite E; cbn [List.filter fmap list_fmap].
    + rewrite app_nil_r. cbn. split; [lia|]. tauto.
    + destruct (due t); cbn [negb fmap list_fmap length call_args flat_map app].
      * rewrite length_app. cbn. split; [lia|].
        intros a [Ha | Ha]; [|by apply not_elem_of_nil in Ha].
        apply elem_of_app in Ha as [Ha | Ha]; [by left | by right; left].
      * rewrite app_nil_r. cbn. split; [lia|]. tauto.
Qed.

(** The invoked arguments and the pending ones all come from calls, and
    there are no more of them than calls. *)
Lemma run_accounting tr w :
  single w →
  (length (invoked (run wait w tr)) + length (timers (run wait w tr))
   ≤ length (invoked w) + length (timers w) + length (call_args tr))%nat ∧
  ∀ a, a ∈ invoked (run wait w tr) ∨ a ∈ args <$> timers (run wait w tr) →
       a ∈ invoked w ∨ a ∈ args <$> timers w ∨ a ∈ call_args tr.
Proof.
  revert w. induction tr as [|e tr IH]; intros w Hw.
  - cbn. split; [lia|]. tauto.
  - change (run wait w (e :: tr)) with (run wait (step wait w e) tr).
    destruct (IH (step wait w e) (step_single w e Hw)) as [Hlen Hmem].
    destruct (step_accounting e w Hw) as [Hlen' Hmem'].
    rewrite call_args_cons, length_app. split; [lia|].
    intros a Ha. rewrite elem_of_app.
    destruct (Hmem a Ha) as [H | [H | H]]; [| |tauto].
    + destruct (Hmem' a (or_introl H)); tauto.
    + destruct (Hmem' a (or_intror H)); tauto.
Qed.

End DebounceFacts.

(** X12.  A debouncer never has more than one timer pending, and a
    pending timer is the one whose handle the closure holds: through any
    sequence of calls, cancellations and passing time. *)
Theorem debounce_single_timer (wait : nat) (trace : list Debounce.Event) :
  (length (Debounce.timers (Debounce.run wait Debounce.fresh trace)) ≤ 1)%nat ∧
  ∀ t, t ∈ Debounce.timers (Debounce.run wait Debounce.fresh trace) →
       Debounce.timeout (Debounce.run wait Debounce.fresh trace)
       = Some (Debounce.handle t).
Proof.
  pose proof (run_single wait Debounce.fresh trace (fresh_single)) as H.
  unfold DebounceInv.single in H.
  destruct (Debounce.timers _) as [|t [|t' ts]]; [| |done].
  - split; [simpl; lia|]. by intros t ?%not_elem_of_nil.
  - split; [simpl; lia|]. by intros t' ->%list_elem_of_singleton.
Qed.

(** X13.  Trailing edge: after anything that happened before, a burst of
    calls each followed by less than [wait] of idle time, then one more
    call and [wait] of idle time, invokes the function exactly once more,
    with the arguments of the last call. *)
Theorem debounce_trailing_edge (wait : nat) (before : list Debounce.Event)
    (calls : list (string * nat)) (a : string) :
  (1 ≤ wait)%nat →
  Forall (λ '(_, gap), gap < wait) calls →
  Debounce.invoked
    (Debounce.run wait Debounce.fresh
       (before ++ Debounce.burst calls ++ Debounce.Call a :: replicate wait Debounce.Tick))
  = Debounce.invoked (Debounce.run wait Debounce.fresh before) ++ [a].
Proof.
  intros Hwait Hgaps.
  rewrite !run_app.
  set (w := Debounce.run wait Debounce.fresh before).
  assert (DebounceInv.single w) as Hw by apply run_single, fresh_single.
  set (w' := Debounce.run wait w (Debounce.burst calls)).
  assert (DebounceInv.single w') as Hw' by by apply run_single.
  change (Debounce.run wait w' (Debounce.Call a :: replicate wait Debounce.Tick))
    with (Debounce.run wait (Debounce.debounced wait a w') (replicate wait Debounce.Tick)).
  destruct (ticks_fire wait _ _ _ _ (debounced_timers wait a w' Hw') Hwait) as [_ ->].
  unfold w'. cbn [Debounce.invoked Debounce.debounced]. by rewrite burst_silent.
Qed.

Lemma debounce_trailing_edge_witness :
  (1 ≤ 300)%nat ∧
  Forall (λ '(_, gap), gap < 300) [("a", 120); ("al", 299)] ∧
  Debounce.invoked
    (Debounce.run 300 Debounce.fresh
       ([] ++ Debounce.burst [("a", 120); ("al", 299)]
           ++ Debounce.Call "ali" :: replicate 300 Debounce.Tick))
  = Debounce.invoked (Debounce.run 300 Debounce.fresh []) ++ ["ali"].
Proof.
  assert (Forall (λ '(_, gap), gap < 300) [("a", 120); ("al", 299)]) as H.
  { repeat constructor; lia. }
  split; [lia|]. split; [exact H|].
  exact (debounce_trailing_edge 300 [] [("a", 120); ("al", 299)] "ali"
           ltac:(lia) H).
Defined.

(** X14.  After [cancel()] nothing is invoked, however much time passes,
    until the next call. *)
Theorem debounce_cancel (wait : nat) (before : list Debounce.Event) (n : nat) :
  Debounce.invoked
    (Debounce.run wait Debounce.fresh
       (before ++ Debounce.Cancel :: replicate n Debounce.Tick))
  = Debounce.invoked (Debounce.run wait Debounce.fresh before).
Proof.
  rewrite run_app.
  set (w := Debounce.run wait Debounce.fresh before).
  assert (DebounceInv.single w) as Hw by apply run_single, fresh_single.
  change (Debounce.run wait w (Debounce.Cancel :: replicate n Debounce.Tick))
    with (Debounce.run wait (Debounce.cancel w) (replicate n Debounce.Tick)).
  destruct (cancel_timers w Hw) as [Ht _].
  rewrite ticks_idle by done.
  unfold Debounce.cancel. by destruct (Debounce.timeout w).
Qed.

(** X15.  Through any sequence of events, the function is invoked at
    most as often as the debounced function was called, and only with
    arguments of such calls. *)
Theorem debounce_accounting (wait : nat) (trace : list Debounce.Event) :
  (length (Debounce.invoked (Debounce.run wait Debounce.fresh trace))
   ≤ length (DebounceInv.call_args trace))%nat ∧
  ∀ a, a ∈ Debounce.invoked (Debounce.run wait Debounce.fresh trace) →
       a ∈ DebounceInv.call_args trace.
Proof.
  destruct (run_accounting wait trace Debounce.fresh fresh_single) as [Hlen Hmem].
  split; [simpl in Hlen; lia|].
  intros a Ha. destruct (Hmem a (or_introl Ha)) as [H | [H | H]]; [| |done].
  - by apply not_elem_of_nil in H.
  - by apply not_elem_of_nil in H.
Qed.

Example debounce_session :
  Debounce.invoked
    (Debounce.run 3 Debounce.fresh
       [Debounce.Call "a"; Debounce.Tick; Debounce.Call "ab"; Debounce.Tick;
        Debounce.Tick; Debounce.Tick; Debounce.Tick; Debounce.Call "abc";
        Debounce.Cancel; Debounce.Tick; Debounce.Tick; Debounce.Tick])
  = ["ab"].
Proof. reflexivity. Qed.

(** ** The URL-synchronised filter *)

Section UrlFacts.

Import URLSearchParams.

Lemma get_delete_eq name ps : get name (delete name ps) = None.
Proof.
  unfold get, delete. induction ps as [|[k v] ps IH]; simpl; [done|].
  destruct (String.eqb k name) eqn:E; simpl; [done|]. by rewrite E.
Qed.

Lemma get_delete_ne name name' ps :
  name' ≠ name → get name' (delete name ps) = get name' ps.
Proof.
  intros Hne.
  assert (String.eqb name name' = false) as Hf by (apply String.eqb_neq; congruence).
  unfold get, delete.
  induction ps as [|[k v] ps IH]; simpl; [done|].
  destruct (String.eqb k name) eqn:E; simpl.
  - apply String.eqb_eq in E as ->. by rewrite Hf.
  - by destruct (String.eqb k name').
Qed.

Lemma get_set_eq name value ps : get name (set name value ps) = Some value.
Proof.
  induction ps as [|[k v] ps IH]; simpl.
  - unfold get. simpl. by rewrite String.eqb_refl.
  - destruct (String.eqb k name) eqn:E.
    + unfold get. simpl. by rewrite String.eqb_refl.
    + unfold get in *. simpl. by rewrite E.
Qed.

Lemma get_set_ne name name' value ps :
  name' ≠ name → get name' (set name value ps) = get name' ps.
Proof.
  intros Hne.
  assert (String.eqb name name' = false) as Hf by (apply String.eqb_neq; congruence).
  induction ps as [|[k v] ps IH]; simpl.
  - unfold get. simpl. by rewrite Hf.
  - destruct (String.eqb k name) eqn:E.
    + apply String.eqb_eq in E as ->.
      pose proof (get_delete_ne name name' ps Hne) as Hd.
      unfold get in *. simpl. by rewrite Hf.
    + unfold get in *. simpl. by destruct (String.eqb k name').
Qed.

(** The pairs of a given name. *)
Lemma delete_none name ps :
  List.filter (λ p, String.eqb (fst p) name) (delete name ps) = [].
Proof.
  unfold delete. induction ps as [|[k v] ps IH]; simpl; [done|].
  destruct (String.eqb k name) eqn:E; simpl; [done|]. by rewrite E.
Qed.

Lemma set_once name value ps :
  List.filter (λ p, String.eqb (fst p) name) (set name value ps) = [(name, value)].
Proof.
  induction ps as [|[k v] ps IH]; simpl.
  - by rewrite String.eqb_refl.
  - destruct (String.eqb k name) eqn:E; simpl.
    + by rewrite String.eqb_refl, delete_none.
    + by rewrite E.
Qed.

End UrlFacts.

(** X16.  [handleSearch] of the URL-synchronised filter pushes a query
    string in which [q] occurs at most once and reads as the trimmed
    term, or is absent when the term is empty or white space only; this
    is the very [term] parameter the hook puts on the request for the
    same call.  Every other parameter reads as before, the input keeps
    its term, and [onFilter] gets the term as typed, after the push. *)
Theorem handleSearch_url (searchParams : list (string * string)) (searchTerm : string) :
  ∃ params,
    ClashFilterUrl.handleSearch searchParams searchTerm
    = (searchTerm, [ClashFilterUrl.RouterPush params; ClashFilterUrl.OnFilter searchTerm]) ∧
    URLSearchParams.get "q" params = UseClashes.url_term searchTerm ∧
    (length (List.filter (λ p, String.eqb (fst p) "q") params) ≤ 1)%nat ∧
    ∀ name, name ≠ "q" →
            URLSearchParams.get name params = URLSearchParams.get name searchParams.
Proof.
  unfold ClashFilterUrl.handleSearch, UseClashes.url_term.
  eexists. split; [reflexivity|].
  destruct (truthy (trim searchTerm)).
  - split; [apply get_set_eq|]. split; [by rewrite set_once|].
    intros name Hne. by apply get_set_ne.
  - split; [apply get_delete_eq|]. split; [by rewrite delete_none; simpl; lia|].
    intros name Hne. by apply get_delete_ne.
Qed.

(** X17.  [handleClear] of the URL-synchronised filter empties the
    input, pushes a query string without any [q] in which every other
    parameter reads as before, and then calls [onFilter('')]. *)
Theorem handleClear_url (searchParams : list (string * string)) (searchTerm : string) :
  ∃ params,
    ClashFilterUrl.handleClear searchParams searchTerm
    = ("", [ClashFilterUrl.RouterPush params; ClashFilterUrl.OnFilter ""]) ∧
    URLSearchParams.get "q" params = None ∧
    List.filter (λ p, String.eqb (fst p) "q") params = [] ∧
    ∀ name, name ≠ "q" →
            URLSearchParams.get name params = URLSearchParams.get name searchParams.
Proof.
  unfold ClashFilterUrl.handleClear. eexists. split; [reflexivity|].
  split; [apply get_delete_eq|]. split; [apply delete_none|].
  intros name Hne. by apply get_delete_ne.
Qed.

(** X18.  A filter mounted on the URL that [handleSearch] pushed starts
    with the trimmed term of that search: the term survives a reload of
    the page up to surrounding white space. *)
Theorem url_round_trip (searchParams : list (string * string)) (searchTerm : string) :
  ∃ params rest,
    snd (ClashFilterUrl.handleSearch searchParams searchTerm)
    = ClashFilterUrl.RouterPush params :: rest ∧
    ClashFilterUrl.initial_searchTerm params = trim searchTerm.
Proof.
  unfold ClashFilterUrl.handleSearch, ClashFilterUrl.initial_searchTerm.
  do 2 eexists. split; [reflexivity|].
  destruct (truthy (trim searchTerm)) eqn:E.
  - by rewrite get_set_eq, E.
  - rewrite get_delete_eq. by destruct (trim searchTerm).
Qed.

Example handleSearch_replaces_q :
  ClashFilterUrl.handleSearch [("page", "2"); ("q", "old"); ("q", "older")] " Alice "
  = (" Alice ",
     [ClashFilterUrl.RouterPush [("page", "2"); ("q", "Alice")];
      ClashFilterUrl.OnFilter " Alice "]).
Proof. reflexivity. Qed.

(** ** The navigation bar *)

Lemma prefix_common h1 h2 p :
  String.prefix h1 p = true → String.prefix h2 p = true →
  String.prefix h1 h2 = true ∨ String.prefix h2 h1 = true.
Proof.
  revert h1 h2.
  induction p as [|c p IH]; intros [|a h1] [|b h2]; simpl; auto; try discriminate.
  destruct (Ascii.ascii_dec a c) as [->|]; [|discriminate].
  destruct (Ascii.ascii_dec b c) as [->|]; [|discriminate].
  destruct (Ascii.ascii_dec c c); [|done]. apply IH.
Qed.

(** X19.  Two links other than the root link are highlighted on the same
    page only if the href of one starts with the href of the other. *)
Theorem links_active_together (pathname href href' : string) :
  href ≠ "/" → href' ≠ "/" →
  AppNavbar.isActive pathname href = true →
  AppNavbar.isActive pathname href' = true →
  AppNavbar.startsWith href' href = true ∨ AppNavbar.startsWith href href' = true.
Proof.
  unfold AppNavbar.isActive, AppNavbar.startsWith.
  intros ->%String.eqb_neq ->%String.eqb_neq. apply prefix_common.
Qed.

Lemma links_active_together_witness :
  AppNavbar.startsWith "/clashes/create" "/clashes" = true
  ∨ AppNavbar.startsWith "/clashes" "/clashes/create" = true.
Proof.
  apply (links_active_together "/clashes/create/new" "/clashes" "/clashes/create");
    first [discriminate | reflexivity].
Defined.

(** The two links of the bar are never highlighted together, and the
    Clashes link is highlighted on the create page. *)
Example navbar_links :
  (∀ pathname, AppNavbar.isActive pathname "/clashes" = true →
               AppNavbar.isActive pathname "/peers" = false) ∧
  AppNavbar.isActive "/clashes/create" "/clashes" = true.
Proof.
  split; [|reflexivity]. intros pathname H.
  apply not_true_is_false. intros H'.
  by destruct (prefix_common _ _ _ H H').
Qed.

(** ** More on the create-clash schema and action *)

Section MoreCreateClashFacts.

Import CreateClash.

Variable is_valid_url : string → bool.
Variable invalid_type_message : string.

(** Only fields that reported something are keys of [fieldErrors]. *)
Lemma fieldErrors_lookup_inv (issues : list (string * list string)) field msgs :
  fieldErrors issues !! field = Some msgs → (field, msgs) ∈ issues ∧ msgs ≠ [].
Proof.
  induction issues as [|[k m] issues IH]; simpl.
  - by rewrite lookup_empty.
  - destruct m as [|m0 m].
    + intros [? ?]%IH. split; [by apply list_elem_of_further|done].
    + destruct (decide (k = field)) as [->|Hne].
      * rewrite lookup_insert_eq. intros [= <-]. split; [apply list_elem_of_here|done].
      * rewrite lookup_insert_ne by done.
        intros [? ?]%IH. split; [by apply list_elem_of_further|done].
Qed.

Lemma fieldErrors_lookup_None (issues : list (string * list string)) field :
  NoDup issues.*1 → (field, []) ∈ issues → fieldErrors issues !! field = None.
Proof.
  intros Hnd Hin. destruct (fieldErrors issues !! field) as [msgs|] eqn:E; [|done].
  apply fieldErrors_lookup_inv in E as [Hin' Hne].
  assert (msgs = []) as ->; [|done].
  clear Hne. induction issues as [|[k m] issues IH]; [by apply not_elem_of_nil in Hin|].
  simpl in Hnd. apply NoDup_cons in Hnd as [Hk Hnd].
  apply elem_of_cons in Hin as [[= <- <-] | Hin];
    apply elem_of_cons in Hin' as [[= ?] | Hin']; subst; try done.
  - exfalso. apply Hk. apply list_elem_of_fmap. by exists (field, msgs).
  - exfalso. apply Hk. apply list_elem_of_fmap. by exists (k, []).
  - by apply IH.
Qed.

(** What is found under the key of a field of the schema. *)
Lemma schema_lookup form field msgs :
  (field, msgs) ∈ createClashSchema is_valid_url invalid_type_message (schema_input form) →
  fieldErrors (createClashSchema is_valid_url invalid_type_message (schema_input form))
    !! field
  = match msgs with [] => None | _ :: _ => Some msgs end.
Proof.
  intros Hin. destruct msgs as [|m msgs].
  - apply fieldErrors_lookup_None; [apply schema_fields_NoDup | done].
  - apply fieldErrors_lookup; [apply schema_fields_NoDup | done | done].
Qed.

(** No field of the schema reports more than one message, and
    [participantIds] reports none. *)
Lemma schema_single_message form field msgs :
  (field, msgs) ∈ createClashSchema is_valid_url invalid_type_message (schema_input form) →
  (length msgs ≤ 1)%nat ∧ (field = "participantIds" → msgs = []).
Proof.
  unfold createClashSchema.
  rewrite !elem_of_cons, elem_of_nil.
  destruct form as [t d l a dt u pids p].
  cbn [schema_input in_title in_description in_location in_address in_date
         in_pictureUrl in_createdByPeerId].
  intros [H|[H|[H|[H|[H|[H|[H|[H|[]]]]]]]]]; injection H as -> ->;
    (split; [|try discriminate; try done]).
  - destruct t as [t|]; [|simpl; lia]. unfold z_string, check_passes. cbn [List.filter].
    destruct (Nat.leb_spec 1 (String.length t)), (Nat.leb_spec (String.length t) 100);
      simpl; lia.
  - destruct d as [d|]; [|simpl; lia]. unfold z_string. cbn [List.filter].
    destruct (check_passes _ _ _); simpl; lia.
  - destruct l as [l|]; [|simpl; lia]. unfold z_string. cbn [List.filter].
    destruct (check_passes _ _ _); simpl; lia.
  - destruct a as [a|]; [|simpl; lia]. unfold z_string. cbn [List.filter].
    destruct (check_passes _ _ _); simpl; lia.
  - destruct dt as [dt|]; [|simpl; lia]. unfold z_string. cbn [List.filter].
    destruct (check_passes _ _ _); simpl; lia.
  - destruct u as [u|]; [|simpl; lia]. unfold z_string. cbn [List.filter].
    destruct (check_passes _ _ _); simpl; lia.
  - simpl. lia.
  - destruct p as [p|]; [|simpl; lia]. unfold z_string. cbn [List.filter].
    destruct (check_passes _ _ _); simpl; lia.
Qed.

Lemma safeParse_error_inv form errs :
  safeParse is_valid_url invalid_type_message (schema_input form) = ParseError errs →
  Spec.valid_input is_valid_url form = false ∧
  errs = fieldErrors (createClashSchema is_valid_url invalid_type_message
                        (schema_input form)).
Proof.
  intros H. destruct (Spec.valid_input is_valid_url form) eqn:E.
  - destruct (safeParse_valid is_valid_url invalid_type_message form E) as (data & Hd & _).
    congruence.
  - split; [done|].
    rewrite (safeParse_invalid is_valid_url invalid_type_message form E) in H.
    congruence.
Qed.

End MoreCreateClashFacts.

(** X20.  The schema accepts exactly the Create-Clash inputs of the data
    model.  When [safeParse] succeeds the form is valid and the parsed
    data carries the submitted strings unchanged, with the participant
    ids derived from the raw field; when it fails the form is invalid and
    the errors are not empty. *)
Theorem safeParse_characterised
    (is_valid_url : string → bool) (invalid_type_message : string)
    (form : CreateClash.FormValues) :
  match CreateClash.safeParse is_valid_url invalid_type_message
          (CreateClash.schema_input form) with
  | CreateClash.ParseSuccess data =>
      Spec.valid_input is_valid_url form = true ∧
      CreateClash.fv_title form = Some (CreateClash.d_title data) ∧
      CreateClash.fv_description form = Some (CreateClash.d_description data) ∧
      CreateClash.fv_location form = Some (CreateClash.d_location data) ∧
      CreateClash.fv_address form = Some (CreateClash.d_address data) ∧
      CreateClash.fv_date form = Some (CreateClash.d_date data) ∧
      CreateClash.fv_pictureUrl form = Some (CreateClash.d_pictureUrl data) ∧
      CreateClash.fv_createdByPeerId form = Some (CreateClash.d_createdByPeerId data) ∧
      CreateClash.d_participantIds data
      = CreateClash.participantIds_of (CreateClash.fv_participantIds form)
  | CreateClash.ParseError errs =>
      Spec.valid_input is_valid_url form = false ∧ errs ≠ ∅
  end.
Proof.
  destruct (Spec.valid_input is_valid_url form) eqn:E.
  - unfold CreateClash.safeParse. rewrite no_issues_valid, E.
    destruct (parsed_valid is_valid_url form E) as (data & Hd & _). rewrite Hd.
    split; [done|].
    destruct form as [[t|] [d|] [l|] [a|] [dt|] [u|] pids [p|]]; try discriminate.
    by injection Hd as <-.
  - rewrite (safeParse_invalid is_valid_url invalid_type_message form E).
    split; [done|].
    destruct (invalid_reports is_valid_url invalid_type_message form E)
      as (field & msgs & Hin & Hne).
    pose proof (fieldErrors_lookup _ field msgs
                  (schema_fields_NoDup is_valid_url invalid_type_message form) Hin Hne)
      as Hlook.
    intros Hempty. by rewrite Hempty, lookup_empty in Hlook.
Qed.

(** X21.  Every entry of the errors that a failed validation returns is
    under the name of one of the seven string fields, never under
    participantIds, and holds exactly one message: the first message of
    a field, which is what the form shows, is all there is. *)
Theorem errors_single_message
    (is_valid_url : string → bool) (invalid_type_message : string)
    (form : CreateClash.FormValues) (errs : gmap string (list string))
    (field : string) (msgs : list string) :
  CreateClash.safeParse is_valid_url invalid_type_message
    (CreateClash.schema_input form) = CreateClash.ParseError errs →
  errs !! field = Some msgs →
  (∃ m, msgs = [m]) ∧
  field ∈ ["title"; "description"; "location"; "address"; "date"; "pictureUrl";
           "createdByPeerId"].
Proof.
  intros [_ ->]%safeParse_error_inv [Hin Hne]%fieldErrors_lookup_inv.
  destruct (schema_single_message _ _ _ _ _ Hin) as [Hlen Hpids].
  split.
  - destruct msgs as [|m [|m' msgs]]; [done | by exists m | simpl in Hlen; lia].
  - assert (field ∈ (CreateClash.createClashSchema is_valid_url invalid_type_message
                       (CreateClash.schema_input form)).*1) as Hk.
    { apply list_elem_of_fmap. by exists (field, msgs). }
    rewrite schema_fields in Hk.
    rewrite !elem_of_cons in *.
    destruct Hk as [?|[?|[?|[?|[?|[?|[?|[?|?]]]]]]]]; auto 10.
    by specialize (Hpids H).
Qed.

Lemma errors_single_message_witness :
  ∃ errs,
    CreateClash.safeParse Samples.web_url "Expected string, received null"
      (CreateClash.schema_input (Samples.with_title (Some "") Samples.form))
    = CreateClash.ParseError errs ∧
    errs !! "title" = Some ["Title is required"] ∧
    (∃ m, ["Title is required"] = [m]) ∧
    "title" ∈ ["title"; "description"; "location"; "address"; "date"; "pictureUrl";
               "createdByPeerId"].
Proof.
  eexists. split; [reflexivity|].
  assert (CreateClash.fieldErrors
            (CreateClash.createClashSchema Samples.web_url "Expected string, received null"
               (CreateClash.schema_input (Samples.with_title (Some "") Samples.form)))
            !! "title" = Some ["Title is required"]) as H by by vm_compute.
  split; [exact H|].
  exact (errors_single_message Samples.web_url "Expected string, received null"
           (Samples.with_title (Some "") Samples.form) _ "title" ["Title is required"]
           eq_refl H).
Defined.

(** X22.  The error of the title after a failed validation, by the
    submitted title: the type message when the field is absent, "Title is
    required" when it is empty, "Title too long" when it has more than
    100 characters, and none for 1 to 100 characters. *)
Theorem title_errors
    (is_valid_url : string → bool) (invalid_type_message : string)
    (form : CreateClash.FormValues) (errs : gmap string (list string)) :
  CreateClash.safeParse is_valid_url invalid_type_message
    (CreateClash.schema_input form) = CreateClash.ParseError errs →
  errs !! "title" =
  match CreateClash.fv_title form with
  | None => Some [invalid_type_message]
  | Some t =>
      if (String.length t =? 0)%nat then Some ["Title is required"]
      else if (100 <? String.length t)%nat then Some ["Title too long"]
      else None
  end.
Proof.
  intros [_ ->]%safeParse_error_inv.
  rewrite (schema_lookup is_valid_url invalid_type_message form "title"
             (CreateClash.z_string is_valid_url invalid_type_message
                [CreateClash.Min 1 "Title is required";
                 CreateClash.Max 100 "Title too long"]
                (CreateClash.fv_title form)))
    by (destruct form; apply list_elem_of_here).
  destruct (CreateClash.fv_title form) as [t|]; [|done].
  unfold CreateClash.z_string, CreateClash.check_passes. cbn [List.filter].
  destruct (Nat.leb_spec 1 (String.length t)), (Nat.leb_spec (String.length t) 100),
    (Nat.eqb_spec (String.length t) 0), (Nat.ltb_spec 100 (String.length t));
    simpl; try lia; done.
Qed.

Lemma title_errors_witness :
  ∃ errs,
    CreateClash.safeParse Samples.web_url "Expected string, received null"
      (CreateClash.schema_input (Samples.with_title None Samples.form))
    = CreateClash.ParseError errs ∧
    errs !! "title" = Some ["Expected string, received null"].
Proof.
  eexists. split; [reflexivity|].
  exact (title_errors Samples.web_url "Expected string, received null"
           (Samples.with_title None Samples.form) _ eq_refl).
Defined.

(** X23.  After a failed validation, every string field that the form
    did not carry has the type message, and only it, under its name. *)
Theorem missing_field_errors
    (is_valid_url : string → bool) (invalid_type_message : string)
    (form : CreateClash.FormValues) (errs : gmap string (list string)) :
  CreateClash.safeParse is_valid_url invalid_type_message
    (CreateClash.schema_input form) = CreateClash.ParseError errs →
  Forall (λ '(field, value), value = None → errs !! field = Some [invalid_type_message])
    [("title", CreateClash.fv_title form);
     ("description", CreateClash.fv_description form);
     ("location", CreateClash.fv_location form);
     ("address", CreateClash.fv_address form);
     ("date", CreateClash.fv_date form);
     ("pictureUrl", CreateClash.fv_pictureUrl form);
     ("createdByPeerId", CreateClash.fv_createdByPeerId form)].
Proof.
  intros [_ ->]%safeParse_error_inv.
  destruct form as [t d l a dt u pids p].
  repeat apply Forall_cons_2; [..|apply Forall_nil_2];
    cbn [CreateClash.fv_title CreateClash.fv_description CreateClash.fv_location
           CreateClash.fv_address CreateClash.fv_date CreateClash.fv_pictureUrl
           CreateClash.fv_createdByPeerId];
    intros ->;
    apply fieldErrors_lookup;
      [apply schema_fields_NoDup | | done | apply schema_fields_NoDup | | done
       | apply schema_fields_NoDup | | done | apply schema_fields_NoDup | | done
       | apply schema_fields_NoDup | | done | apply schema_fields_NoDup | | done
       | apply schema_fields_NoDup | | done];
    unfold CreateClash.createClashSchema;
    cbn [CreateClash.schema_input CreateClash.in_title CreateClash.in_description
           CreateClash.in_location CreateClash.in_address CreateClash.in_date
           CreateClash.in_pictureUrl CreateClash.in_createdByPeerId
           CreateClash.z_string];
    rewrite !elem_of_cons; auto 10.
Qed.

Lemma missing_field_errors_witness :
  ∃ errs,
    CreateClash.safeParse Samples.web_url "Expected string, received null"
      (CreateClash.schema_input (Samples.with_description None Samples.form))
    = CreateClash.ParseError errs ∧
    Forall (λ '(field, value),
              value = None → errs !! field = Some ["Expected string, received null"])
      [("title", CreateClash.fv_title (Samples.with_description None Samples.form));
       ("description", CreateClash.fv_description (Samples.with_description None Samples.form));
       ("location", CreateClash.fv_location (Samples.with_description None Samples.form));
       ("address", CreateClash.fv_address (Samples.with_description None Samples.form));
       ("date", CreateClash.fv_date (Samples.with_description None Samples.form));
       ("pictureUrl", CreateClash.fv_pictureUrl (Samples.with_description None Samples.form));
       ("createdByPeerId",
        CreateClash.fv_createdByPeerId (Samples.with_description None Samples.form))].
Proof.
  eexists. split; [reflexivity|].
  exact (missing_field_errors Samples.web_url "Expected string, received null"
           (Samples.with_description None Samples.form) _ eq_refl).
Defined.

(** X24.  A valid form is sent to the mutation once, and whatever the
    mutation answers (an id, no id, or a failure) the action returns the
    same state: no field errors, the message "Failed to create clash.
    Please try again." and the submitted values.  With an id this is so
    because [redirect] signals by throwing, and it is called inside the
    [try] whose bare [catch] returns that state. *)
Theorem createClash_after_validation
    (is_valid_url : string → bool) (invalid_type_message : string)
    (mutate : CreateClash.CreateClashFormData → Completion (option string))
    (form : CreateClash.FormValues) :
  Spec.valid_input is_valid_url form = true →
  ∃ data,
    CreateClash.createClash is_valid_url invalid_type_message mutate form =
    ([CreateClash.Mutate data],
     Return {| CreateClash.errors := ∅;
               CreateClash.message := "Failed to create clash. Please try again.";
               CreateClash.values := form |}).
Proof.
  intros Hv.
  destruct (safeParse_valid is_valid_url invalid_type_message form Hv) as (data & Hd & _).
  exists data. by apply createClash_valid.
Qed.

Lemma createClash_after_validation_witness :
  Spec.valid_input Samples.web_url Samples.form = true ∧
  ∃ data,
    CreateClash.createClash Samples.web_url "Expected string, received null"
      (Samples.created "42") Samples.form =
    ([CreateClash.Mutate data],
     Return {| CreateClash.errors := ∅;
               CreateClash.message := "Failed to create clash. Please try again.";
               CreateClash.values := Samples.form |}).
Proof.
  split; [reflexivity|].
  apply (createClash_after_validation Samples.web_url "Expected string, received null"
           (Samples.created "42") Samples.form).
  reflexivity.
Defined.

(** X25.  In every outcome the action returns normally with the
    submitted values echoed; it reports field errors exactly when the
    form is invalid and sends a mutation exactly when the form is
    valid. *)
Theorem createClash_outcomes
    (is_valid_url : string → bool) (invalid_type_message : string)
    (mutate : CreateClash.CreateClashFormData → Completion (option string))
    (form : CreateClash.FormValues) :
  ∃ sent state,
    CreateClash.createClash is_valid_url invalid_type_message mutate form
    = (sent, Return state) ∧
    CreateClash.values state = form ∧
    (CreateClash.errors state = ∅ ↔ Spec.valid_input is_valid_url form = true) ∧
    (sent = [] ↔ Spec.valid_input is_valid_url form = false).
Proof.
  destruct (Spec.valid_input is_valid_url form) eqn:E.
  - destruct (safeParse_valid is_valid_url invalid_type_message form E) as (data & Hd & _).
    rewrite (createClash_valid _ _ _ _ _ Hd).
    do 2 eexists. split; [reflexivity|]. split; [done|]. split; [done|].
    split; discriminate.
  - pose proof (safeParse_invalid is_valid_url invalid_type_message form E) as Herr.
    rewrite (createClash_invalid _ _ _ _ _ Herr).
    do 2 eexists. split; [reflexivity|]. split; [done|]. split; [|done].
    split; [|discriminate]. cbn [CreateClash.errors]. intros Hempty.
    destruct (invalid_reports is_valid_url invalid_type_message form E)
      as (field & msgs & Hin & Hne).
    pose proof (fieldErrors_lookup _ field msgs
                  (schema_fields_NoDup is_valid_url invalid_type_message form) Hin Hne)
      as Hlook.
    by rewrite Hempty, lookup_empty in Hlook.
Qed.

(** ** The participant ids *)

Section ParticipantIds.

Lemma append_empty_r s : s +:+ "" = s.
Proof. induction s as [|c s IH]; [done|]. by rewrite append_cons, IH. Qed.

Lemma rev_app_spec s t : String.rev_app s t = String.rev s +:+ t.
Proof.
  unfold String.rev. revert t. induction s as [|c s IH]; intros t; simpl; [done|].
  rewrite (IH (String c t)), (IH (String c "")).
  by rewrite append_assoc.
Qed.

Lemma rev_cons c s : String.rev (String c s) = String.rev s +:+ String c "".
Proof. unfold String.rev at 1. simpl. apply rev_app_spec. Qed.

Lemma occurs_append c s t : occurs c (s +:+ t) = occurs c s || occurs c t.
Proof.
  induction s as [|a s IH]; [done|].
  rewrite append_cons. simpl. by rewrite IH, orb_assoc.
Qed.

Lemma occurs_rev c s : occurs c (String.rev s) = occurs c s.
Proof.
  induction s as [|a s IH]; [done|].
  rewrite rev_cons, occurs_append, IH. simpl.
  by rewrite orb_false_r, orb_comm.
Qed.

Lemma occurs_trimStart c s : occurs c (trimStart s) = true → occurs c s = true.
Proof.
  induction s as [|a s IH]; simpl; [done|].
  destruct (is_white_space a); [|done].
  intros H%IH. by rewrite H, orb_true_r.
Qed.

Lemma occurs_trimEnd c s : occurs c (trimEnd s) = true → occurs c s = true.
Proof.
  induction s as [|a s IH]; simpl; [done|].
  destruct (trimEnd s) as [|b r].
  - destruct (is_white_space a); simpl; [done|].
    rewrite orb_false_r. by intros ->.
  - intros [Ha | Hr]%orb_true_iff; [by rewrite Ha|].
    by rewrite (IH Hr), orb_true_r.
Qed.

Lemma occurs_trim c s : occurs c s = false → occurs c (trim s) = false.
Proof.
  intros H. apply not_true_is_false. unfold trim.
  intros H'%occurs_trimEnd%occurs_trimStart. congruence.
Qed.

(** No piece of a split holds the separator. *)
Lemma split_from_pieces sep acc s piece :
  occurs sep acc = false → piece ∈ split_from sep acc s → occurs sep piece = false.
Proof.
  revert acc. induction s as [|c s IH]; intros acc Hacc; simpl.
  - intros ->%list_elem_of_singleton. by rewrite occurs_rev.
  - destruct (Ascii.eqb c sep) eqn:E.
    + intros [-> | Hin]%elem_of_cons; [by rewrite occurs_rev|].
      by apply (IH "").
    + apply IH. simpl. by rewrite E.
Qed.

(** Splitting at the first separator. *)
Lemma split_from_piece sep acc p rest :
  occurs sep p = false →
  split_from sep acc (p +:+ String sep rest)
  = (String.rev acc +:+ p) :: split_from sep "" rest.
Proof.
  revert acc. induction p as [|c p IH]; intros acc Hp.
  - change ("" +:+ String sep rest) with (String sep rest). simpl.
    by rewrite Ascii.eqb_refl, append_empty_r.
  - simpl in Hp. apply orb_false_iff in Hp as [Hc Hp].
    rewrite append_cons. simpl. rewrite Hc, (IH _ Hp), rev_cons.
    by rewrite append_assoc.
Qed.

Lemma split_from_whole sep acc p :
  occurs sep p = false → split_from sep acc p = [String.rev acc +:+ p].
Proof.
  revert acc. induction p as [|c p IH]; intros acc Hp; simpl.
  - by rewrite append_empty_r.
  - simpl in Hp. apply orb_false_iff in Hp as [Hc Hp].
    rewrite Hc, (IH _ Hp), rev_cons. by rewrite append_assoc.
Qed.

Lemma white_space_not_comma c : is_white_space c = true → Ascii.eqb c "," = false.
Proof. by destruct c as [[] [] [] [] [] [] [] []]. Qed.

Lemma whitespace_only_no_comma s : whitespace_only s = true → occurs "," s = false.
Proof.
  induction s as [|c s IH]; simpl; [done|].
  intros [Hc Hs]%andb_prop. by rewrite (white_space_not_comma c Hc), IH.
Qed.

Lemma trimStart_padding pad s : whitespace_only pad = true → trimStart (pad +:+ s) = trimStart s.
Proof.
  induction pad as [|c pad IH]; [done|].
  cbn [whitespace_only]. intros [Hc Hpad]%andb_prop.
  rewrite append_cons. cbn [trimStart]. rewrite Hc. by apply IH.
Qed.

Lemma trim_padding pad s : whitespace_only pad = true → trim (pad +:+ s) = trim s.
Proof. intros H. unfold trim. by rewrite trimStart_padding. Qed.

Lemma join_ids_cons i j rest :
  join_ids (i :: j :: rest) = i +:+ String "," (" " +:+ join_ids (j :: rest)).
Proof. reflexivity. Qed.

(** The pieces of joined clean ids, trimmed, are the ids. *)
Lemma split_join ids pad :
  ids ≠ [] → Forall clean_id ids → whitespace_only pad = true →
  trim <$> split_from "," "" (pad +:+ join_ids ids) = ids.
Proof.
  intros Hne Hids. revert pad.
  induction Hids as [|i rest (Hi & Htrim & Hcomma) Hrest IH]; [done|].
  intros pad Hpad.
  assert (occurs "," (pad +:+ i) = false) as Hfree.
  { by rewrite occurs_append, whitespace_only_no_comma, Hcomma. }
  destruct rest as [|j rest].
  - change (join_ids [i]) with i.
    rewrite split_from_whole by done.
    change (String.rev "" +:+ (pad +:+ i)) with (pad +:+ i).
    cbn [fmap list_fmap]. by rewrite trim_padding, Htrim.
  - rewrite join_ids_cons, <- append_assoc, split_from_piece by done.
    change (String.rev "" +:+ (pad +:+ i)) with (pad +:+ i).
    cbn [fmap list_fmap]. rewrite trim_padding, Htrim by done.
    f_equal. by apply (IH ltac:(done) " ").
Qed.

Lemma filter_all {A} (f : A → bool) (l : list A) :
  Forall (λ x, f x = true) l → List.filter f l = l.
Proof.
  induction 1 as [|x l Hx _ IH]; simpl; [done|]. by rewrite Hx, IH.
Qed.

Lemma truthy_spec s : truthy s = true ↔ s ≠ "".
Proof. by destruct s. Qed.

End ParticipantIds.

(** X26.  Every participant id the action derives from the raw field is
    not empty, has no white space around it and holds no comma. *)
Theorem participantIds_clean (raw : option string) (i : string) :
  i ∈ CreateClash.participantIds_of raw → clean_id i.
Proof.
  unfold CreateClash.participantIds_of.
  destruct raw as [s|]; [|by intros ?%not_elem_of_nil].
  destruct (truthy s); [|by intros ?%not_elem_of_nil].
  rewrite elem_of_filter, list_elem_of_fmap.
  intros [(piece & -> & Hpiece) Hi]. split; [by apply truthy_spec|].
  split; [apply trim_idem|].
  apply occurs_trim. by apply (split_from_pieces "," "" s).
Qed.

Lemma participantIds_clean_witness :
  "p2" ∈ CreateClash.participantIds_of (Some "p1, p2 ,,p3") ∧ clean_id "p2".
Proof.
  assert ("p2" ∈ CreateClash.participantIds_of (Some "p1, p2 ,,p3")) as H.
  { apply list_elem_of_further, list_elem_of_here. }
  split; [exact H|].
  exact (participantIds_clean (Some "p1, p2 ,,p3") "p2" H).
Defined.

(** X27.  Round trip: ids that are not empty, have no white space around
    them and hold no comma, written separated by ", " as the form's
    placeholder shows, are derived back exactly, in order. *)
Theorem participantIds_round_trip (ids : list string) :
  Forall clean_id ids →
  CreateClash.participantIds_of (Some (join_ids ids)) = ids.
Proof.
  intros Hids. destruct ids as [|i rest]; [done|].
  unfold CreateClash.participantIds_of, split.
  assert (truthy (join_ids (i :: rest)) = true) as ->.
  { apply Forall_cons in Hids as [(Hi & _) _].
    destruct i as [|c i]; [done|]. by destruct rest. }
  change (join_ids (i :: rest)) with ("" +:+ join_ids (i :: rest)).
  rewrite split_join by done.
  apply filter_all. eapply Forall_impl; [exact Hids|].
  intros x (Hx & _). by apply truthy_spec.
Qed.

Lemma participantIds_round_trip_witness :
  Forall clean_id ["p1"; "p 2"; "3"] ∧
  CreateClash.participantIds_of (Some (join_ids ["p1"; "p 2"; "3"])) = ["p1"; "p 2"; "3"].
Proof.
  assert (Forall clean_id ["p1"; "p 2"; "3"]) as H.
  { repeat constructor; discriminate. }
  split; [exact H|].
  exact (participantIds_round_trip ["p1"; "p 2"; "3"] H).
Defined.
